(** * virtual-fs: an in-memory file tree and a mock filesystem over it

    Shallow embedding of [src/index.js] and the properties of its
    specification.

    Conventions of the embedding.
    - JavaScript objects that are mutated and shared ([Directory], [File])
      live in a heap (a list indexed by location); the two indices of a
      [VirtualEntries] are finite maps from absolute path to location.
    - Exceptions are explicit: every operation returns a [result].
    - Recursion over the entry graph is not structural (the graph may be
      cyclic after [addChild]), so [_add] takes fuel; running out of fuel
      is the outcome [Diverge], and enough fuel is shown to exist for heaps
      built bottom-up.
    - Node's [path] module is modelled for POSIX, where [process.cwd()]
      is an absolute path and the backslash is an ordinary character. *)

From Stdlib Require Import Ascii.
From stdpp Require Import base option list strings gmap pretty.

(** ** JavaScript data values *)

(** JavaScript values that reach the program: primitives, arrays, plain
    objects (properties in enumeration order), functions supplied by the
    caller (opaque, identified by a number) and the object literal that
    [stat] builds, which closes over the path it was given.  Numbers are
    restricted to integers: [JNum n] is the double nearest to [n], which is
    [n] itself when [|n| < 2^53]. *)
#[warnings="-register-all"]
Inductive jsval :=
| JUndefined
| JNull
| JBool (b : bool)
| JNum (n : Z)
| JStr (s : string)
| JArr (elems : list jsval)
| JObj (props : list (string * jsval))
| JFunction (id : nat)
| JStats (path : jsval).

(** [Object.prototype.toString.call(v)] *)
Definition Object_prototype_toString (v : jsval) : string :=
  match v with
  | JUndefined => "[object Undefined]"
  | JNull => "[object Null]"
  | JBool _ => "[object Boolean]"
  | JNum _ => "[object Number]"
  | JStr _ => "[object String]"
  | JArr _ => "[object Array]"
  | JObj _ => "[object Object]"
  | JFunction _ => "[object Function]"
  | JStats _ => "[object Object]"
  end.

(** ToBoolean: the operand test of [||]. *)
Definition truthy (v : jsval) : bool :=
  match v with
  | JUndefined | JNull => false
  | JBool b => b
  | JNum n => negb (n =? 0)%Z
  | JStr s => negb (String.eqb s "")
  | JArr _ | JObj _ | JFunction _ | JStats _ => true
  end.

(** [a || b] *)
Definition js_or (a b : jsval) : jsval := if truthy a then a else b.

(** *** JSON.stringify *)

Definition DQUOTE : ascii := ascii_of_nat 34.
Definition BACKSLASH : ascii := ascii_of_nat 92.

Definition hex_digit (n : nat) : ascii :=
  if decide (n < 10) then ascii_of_nat (48 + n) else ascii_of_nat (87 + n).

Definition json_escape (c : ascii) : string :=
  let n := nat_of_ascii c in
  if decide (c = DQUOTE) then String BACKSLASH (String DQUOTE "")
  else if decide (c = BACKSLASH) then String BACKSLASH (String BACKSLASH "")
  else if decide (n = 8) then String BACKSLASH "b"
  else if decide (n = 9) then String BACKSLASH "t"
  else if decide (n = 10) then String BACKSLASH "n"
  else if decide (n = 12) then String BACKSLASH "f"
  else if decide (n = 13) then String BACKSLASH "r"
  else if decide (n < 32) then
    String BACKSLASH
      ("u00" +:+ String (hex_digit (n / 16)) (String (hex_digit (n mod 16)) ""))
  else String c "".

Fixpoint json_escape_string (s : string) : string :=
  match s with
  | EmptyString => ""
  | String c s' => json_escape c +:+ json_escape_string s'
  end.

Definition json_quote (s : string) : string :=
  String DQUOTE (json_escape_string s +:+ String DQUOTE "").

Fixpoint join (sep : string) (parts : list string) : string :=
  match parts with
  | [] => ""
  | [p] => p
  | p :: rest => p +:+ sep +:+ join sep rest
  end.

(** *** Number::toString on integers *)

(** The double nearest to the non-negative integer [a], as mantissa and
    exponent: [a] itself below 2^53, else [m * 2^e] with 2^52 <= m < 2^53,
    ties to the even mantissa.  [None]: beyond the largest double. *)
Definition nearest_double (a : Z) : option (Z * Z) :=
  if (a <? 2 ^ 53)%Z then Some (a, 0%Z)
  else
    let e := (Z.log2 a - 52)%Z in
    let m0 := (a / 2 ^ e)%Z in
    let r := (a mod 2 ^ e)%Z in
    let half := (2 ^ (e - 1))%Z in
    let m := if ((half <? r) || ((r =? half) && Z.odd m0))%Z then (m0 + 1)%Z else m0 in
    let '(m, e) := if (m =? 2 ^ 53)%Z then (2 ^ 52, e + 1)%Z else (m, e) in
    if (1024 <? e + 53)%Z then None else Some (m, e).

(** The decimal [s * 10^p] with the fewest digits that denotes the double
    [m * 2^e] (at least 2^53), the nearest one if there are several. *)
Definition shortest_decimal (m e : Z) : Z * Z :=
  let d := (m * 2 ^ e)%Z in
  let low4 := (4 * d - (if (m =? 2 ^ 52)%Z then 2 ^ e else 2 ^ (e + 1)))%Z in
  let high4 := (4 * d + 2 ^ (e + 1))%Z in
  let inside (v : Z) : bool :=
    if Z.even m then ((low4 <=? 4 * v) && (4 * v <=? high4))%Z
    else ((low4 <? 4 * v) && (4 * v <? high4))%Z in
  let D := Z.of_nat (String.length (pretty d)) in
  let try (k : Z) : option (Z * Z) :=
    let p := (D - k)%Z in
    if (p <? 0)%Z then None
    else
      let s := (d / 10 ^ p)%Z in
      let v1 := (s * 10 ^ p)%Z in
      let v2 := ((s + 1) * 10 ^ p)%Z in
      match inside v1, inside v2 with
      | true, true =>
          if (d - v1 <? v2 - d)%Z then Some (s, p)
          else if (v2 - d <? d - v1)%Z then Some ((s + 1)%Z, p)
          else if Z.even s then Some (s, p) else Some ((s + 1)%Z, p)
      | true, false => Some (s, p)
      | false, true => Some ((s + 1)%Z, p)
      | false, false => None
      end in
  default (d, 0%Z)
    (list_find (λ o, is_Some o) (map (λ k, try (Z.of_nat k)) (seq 1 17))
       ≫= λ '(_, o), o).

(** Trailing zeros of the digits move to the exponent. *)
Fixpoint strip_zeros (fuel : nat) (s p : Z) : Z * Z :=
  match fuel with
  | O => (s, p)
  | S fuel =>
      if ((0 <? s) && (s mod 10 =? 0))%Z then strip_zeros fuel (s / 10)%Z (p + 1)%Z
      else (s, p)
  end.

Fixpoint zeros (n : nat) : string :=
  match n with O => "" | S n => String "0" (zeros n) end.

(** [Number::toString] of the double nearest to the integer [n]; [None]
    when that double is infinite. *)
Definition number_to_string (n : Z) : option string :=
  match nearest_double (Z.abs n) with
  | None => None
  | Some (m, e) =>
      let sign := if (n <? 0)%Z then "-" else "" in
      if (e =? 0)%Z then Some (pretty n)
      else
        let '(s, p) := shortest_decimal m e in
        let '(s, p) := strip_zeros 400 s p in
        let digits := pretty s in
        let k := String.length digits in
        let n10 := (Z.of_nat k + p)%Z in
        if (n10 <=? 21)%Z then Some (sign +:+ digits +:+ zeros (Z.to_nat p))
        else
          Some (sign +:+
                match digits with
                | String c "" => String c ""
                | String c more => String c ("." +:+ more)
                | "" => ""
                end +:+ "e+" +:+ pretty (n10 - 1)%Z)
  end.

(** Whether the object has a method [toJSON]: a property of that name whose
    value is a function. *)
Fixpoint has_toJSON (props : list (string * jsval)) : bool :=
  match props with
  | [] => false
  | (k, x) :: props' =>
      if decide (k = "toJSON")
      then match x with JFunction _ => true | _ => false end
      else has_toJSON props'
  end.

(** [JSON.stringify(v)] with one argument; [None] stands for the result
    [undefined].  A number is printed by [Number::toString], an infinite
    one as [null].  A property whose value is [undefined] or a function is
    left out (so the object that [stat] builds serializes to an empty
    object); in an array such an element is printed as [null].  An object
    with a method [toJSON] is replaced by what that method returns; the
    functions of this model are opaque, and the convention here is that
    such a call returns [undefined], which serializes to [undefined]. *)
Fixpoint stringify (v : jsval) : option string :=
  match v with
  | JUndefined => None
  | JNull => Some "null"
  | JBool b => Some (if b then "true" else "false")
  | JNum n => Some (default "null" (number_to_string n))
  | JStr s => Some (json_quote s)
  | JArr elems =>
      Some ("[" +:+ join "," (map (λ x, default "null" (stringify x)) elems) +:+ "]")
  | JObj props =>
      if has_toJSON props then None
      else
        let members :=
          (fix go (ps : list (string * jsval)) : list string :=
             match ps with
             | [] => []
             | (k, x) :: ps' =>
                 match stringify x with
                 | None => go ps'
                 | Some s => (json_quote k +:+ ":" +:+ s) :: go ps'
                 end
             end) props in
        Some ("{" +:+ join "," members +:+ "}")
  | JFunction _ => None
  | JStats _ => Some "{}"
  end.

(** The result of [JSON.stringify(v)] as a value. *)
Definition JSON_stringify (v : jsval) : jsval :=
  match stringify v with
  | Some s => JStr s
  | None => JUndefined
  end.

(** ** Node's path module (POSIX) *)

(** [s.replace(SEP, '/')] with [SEP = /\\/g]: every backslash becomes a
    forward slash. *)
Fixpoint replace_SEP (s : string) : string :=
  match s with
  | EmptyString => ""
  | String c s' =>
      String (if decide (c = BACKSLASH) then "/"%char else c) (replace_SEP s')
  end.

Definition is_absolute (p : string) : bool :=
  match p with
  | String c _ => bool_decide (c = "/"%char)
  | EmptyString => false
  end.

(** [s.split('/')] *)
Fixpoint split_slash (s : string) : list string :=
  match s with
  | EmptyString => [""]
  | String c s' =>
      if decide (c = "/"%char) then "" :: split_slash s'
      else match split_slash s' with
           | [] => [String c ""]
           | h :: t => String c h :: t
           end
  end.

(** The non-empty segments of a path. *)
Definition segments (s : string) : list string :=
  filter (λ p, p ≠ "") (split_slash s).

(** Resolution of [.] and [..] segments; [stack] holds the segments kept so
    far, innermost first. *)
Fixpoint normalize_go (allowAboveRoot : bool) (stack parts : list string)
  : list string :=
  match parts with
  | [] => rev stack
  | p :: ps =>
      if decide (p = ".") then normalize_go allowAboveRoot stack ps
      else if decide (p = "..") then
        match stack with
        | top :: below =>
            if decide (top = "..") then normalize_go allowAboveRoot (p :: stack) ps
            else normalize_go allowAboveRoot below ps
        | [] =>
            if allowAboveRoot then normalize_go allowAboveRoot [p] ps
            else normalize_go allowAboveRoot [] ps
        end
      else normalize_go allowAboveRoot (p :: stack) ps
  end.

Definition normalizeArray (parts : list string) (allowAboveRoot : bool)
  : list string :=
  normalize_go allowAboveRoot [] parts.

(** The right-to-left scan of [path.resolve]: arguments are prepended until
    an absolute one is met; empty arguments are skipped. *)
Fixpoint resolve_scan (args_rev : list string) (resolvedPath : string)
  : string * bool :=
  match args_rev with
  | [] => (resolvedPath, false)
  | p :: rest =>
      if decide (p = "") then resolve_scan rest resolvedPath
      else
        let resolvedPath' := p +:+ "/" +:+ resolvedPath in
        if is_absolute p then (resolvedPath', true)
        else resolve_scan rest resolvedPath'
  end.

(** [path.resolve(...args)] in a process whose working directory is [cwd]. *)
Definition path_resolve (cwd : string) (args : list string) : string :=
  let '(resolvedPath, resolvedAbsolute) := resolve_scan (rev (cwd :: args)) "" in
  let parts := normalizeArray (segments resolvedPath) (negb resolvedAbsolute) in
  let r := (if resolvedAbsolute then "/" else "") +:+ join "/" parts in
  if decide (r = "") then "." else r.

(** ** Exceptions and results *)

Inductive exn :=
| AssertionError (message : string)
| TypeError (message : string).

(** The outcome of a call: a value, an exception, or no outcome at all
    (the recursion did not finish within the fuel given). *)
Inductive result (A : Type) :=
| Return (a : A)
| Throw (e : exn)
| Diverge.
Arguments Return {A} a.
Arguments Throw {A} e.
Arguments Diverge {A}.

Global Instance result_bind : MBind result := λ A B k r,
  match r with
  | Return a => k a
  | Throw e => Throw e
  | Diverge => Diverge
  end.

(** [assert.ok(value, message)] *)
Definition assert_ok (value : bool) (message : string) : result unit :=
  if value then Return tt else Throw (AssertionError message).

(** ** Entry model *)

(** A location in the heap. *)
Abbreviation loc := nat.

(** An element of a Directory's [_entries] array: an entry, or an array of
    entries (what [add] hands to [addChild]). *)
Inductive child :=
| CEntry (l : loc)
| CArray (ls : list loc).

Inductive object :=
| Directory (_name : string) (_entries : list child)
| File (_name : string) (_content : jsval).

Definition isFile (o : object) : bool :=
  match o with File _ _ => true | Directory _ _ => false end.

Definition isDirectory (o : object) : bool :=
  match o with Directory _ _ => true | File _ _ => false end.

Definition getName (o : object) : string :=
  match o with Directory n _ | File n _ => n end.

(** [Directory.prototype.addChild]: [arguments] is copied into an array and
    that array is concatenated to [_entries], so each argument becomes one
    new element. *)
Definition addChild (arguments : list child) (o : object) : result object :=
  match o with
  | Directory n es => Return (Directory n (es ++ arguments))
  | File _ _ => Throw (TypeError "addChild is not a function")
  end.

Definition _createContent (content : jsval) : jsval :=
  if decide (Object_prototype_toString content = "[object Object]")
  then JSON_stringify content
  else js_or content (JStr "").

Definition getContent (o : object) : result jsval :=
  match o with
  | File _ c => Return c
  | Directory _ _ => Throw (TypeError "getContent is not a function")
  end.

Definition setContent (content : jsval) (o : object) : result object :=
  match o with
  | File n _ => Return (File n content)
  | Directory _ _ => Throw (TypeError "setContent is not a function")
  end.

(** [args[i]] of an argument list; a missing argument is [undefined]. *)
Definition arg (i : nat) (args : list jsval) : jsval := nth i args JUndefined.

(** [module.exports.createDir(name, ...entries)]: allocates the Directory. *)
Definition createDir (name : string) (entries : list child) (h : list object)
  : loc * list object :=
  (List.length h, h ++ [Directory name entries]).

(** [module.exports.createFile(name, content)]: [rest] holds the arguments
    after the name. *)
Definition createFile (name : string) (rest : list jsval) (h : list object)
  : loc * list object :=
  (List.length h, h ++ [File name (_createContent (arg 0 rest))]).

(** Dereference of an entry. *)
Definition deref (h : list object) (l : loc) : result object :=
  match h !! l with
  | Some o => Return o
  | None => Throw (TypeError "not an entry")
  end.

(** ** Tree and index *)

Record VirtualEntries := mkVirtualEntries {
  _entries : gmap string loc;
  _files : gmap string loc;
  _root : string
}.

Record world := mkWorld {
  heap : list object;
  tree : VirtualEntries
}.

(** The argument of [add]: one entry or an array of entries. *)
Inductive entries_arg :=
| Single (l : loc)
| Array (ls : list loc).

(** [name in obj] for the index objects.  Their keys are results of
    [path.resolve], which start with a slash, so no property inherited from
    [Object.prototype] is ever asked for. *)
Definition js_in (name : string) (obj : gmap string loc) : bool :=
  bool_decide (is_Some (obj !! name)).

(** [VirtualEntries.prototype.getEntries] and [getFiles]: the two index
    objects themselves. *)
Definition getEntries (ve : VirtualEntries) : gmap string loc := _entries ve.

Definition getFiles (ve : VirtualEntries) : gmap string loc := _files ve.

(** The first statement of [_add]: the entry is indexed unless its path is
    already a key. *)
Definition index_if_absent (name : string) (entry : loc) (ve : VirtualEntries)
  : VirtualEntries :=
  if js_in name (_entries ve) then ve
  else mkVirtualEntries (<[name := entry]> (_entries ve)) (_files ve) (_root ve).

Section Process.

(** [process.cwd()] *)
Variable cwd : string.

Definition getRealpath (ve : VirtualEntries) (name : string) : string :=
  path_resolve cwd [_root ve; name].

Definition hasEntry (ve : VirtualEntries) (name : string) : bool :=
  let name := replace_SEP name in
  let resolved := path_resolve cwd [_root ve; name] in
  js_in resolved (_entries ve).

Definition getEntry (ve : VirtualEntries) (name : string) : result loc :=
  let name := replace_SEP name in
  let resolved := path_resolve cwd [_root ve; name] in
  _ ← assert_ok (js_in resolved (_entries ve))
        ("ENOENT " +:+ name +:+ " no such file or directory.");
  match _entries ve !! resolved with
  | Some l => Return l
  | None => Throw (TypeError "unreachable")
  end.

(** The [for] loop of [_add] over the children [content] of the directory
    indexed at [name]; [recur] is the recursive call [this._add]. *)
Fixpoint _add_children
    (recur : string → loc → VirtualEntries → result VirtualEntries)
    (h : list object) (name : string) (content : list child)
    (ve : VirtualEntries) : result VirtualEntries :=
  match content with
  | [] => Return ve
  | CEntry c :: rest =>
      co ← deref h c;
      let next := name +:+ "/" +:+ getName co in
      ve' ← recur (path_resolve cwd [_root ve; next]) c ve;
      _add_children recur h name rest ve'
  | CArray _ :: _ => Throw (TypeError "getName is not a function")
  end.

Fixpoint _add (fuel : nat) (h : list object) (name : string) (entry : loc)
    (ve : VirtualEntries) : result VirtualEntries :=
  match fuel with
  | O => Diverge
  | S fuel' =>
      let ve := index_if_absent name entry ve in
      o ← deref h entry;
      match o with
      | Directory _ content => _add_children (_add fuel' h) h name content ve
      | File _ _ =>
          Return (mkVirtualEntries (_entries ve) (<[name := entry]> (_files ve)) (_root ve))
      end
  end.

(** The loop of [add] over the array of entries. *)
Fixpoint add_loop (fuel : nat) (h : list object) (entries : list loc)
    (ve : VirtualEntries) : result VirtualEntries :=
  match entries with
  | [] => Return ve
  | e :: rest =>
      o ← deref h e;
      ve' ← _add fuel h (path_resolve cwd [_root ve; getName o]) e ve;
      add_loop fuel h rest ve'
  end.

(** [if (!Array.isArray(entries)) { entries = [entries]; }] *)
Definition as_array (entries : entries_arg) : list loc :=
  match entries with Single l => [l] | Array ls => ls end.

Definition add (fuel : nat) (entries : entries_arg) (w : world) : result world :=
  let entries := as_array entries in
  let ve := tree w in
  match _entries ve !! _root ve with
  | None => Throw (TypeError "addChild of undefined")
  | Some r =>
      o ← deref (heap w) r;
      o' ← addChild [CArray entries] o;
      let h := <[r := o']> (heap w) in
      ve' ← add_loop fuel h entries ve;
      Return (mkWorld h ve')
  end.

(** [new VirtualEntries(opt_entries)] *)
Definition new_VirtualEntries (fuel : nat) (opt_entries : option entries_arg)
    (h : list object) : result world :=
  let root := replace_SEP cwd in
  let '(r, h) := createDir root [] h in
  let w := mkWorld h (mkVirtualEntries {[ root := r ]} ∅ root) in
  match opt_entries with
  | Some entries => add fuel entries w
  | None => Return w
  end.

End Process.

(** ** Mock filesystem binding *)

(** What a call of a mock operation does: how it completes, which
    caller-supplied functions it invoked (with their argument lists, in
    order) and the heap it leaves.  A callback is opaque: invoking it is
    recorded, and it is taken to return without touching the tree.  The
    [sinon.spy] wrapper runs the wrapped function unchanged, so it is left
    out. *)
Record outcome := mkOutcome {
  completion : result jsval;
  calls : list (nat * list jsval);
  after : list object
}.

(** [cb(x)] as the last action of an operation. *)
Definition invoke (cb x : jsval) (h : list object) : outcome :=
  match cb with
  | JFunction f => mkOutcome (Return JUndefined) [(f, [x])] h
  | _ => mkOutcome (Throw (TypeError "cb is not a function")) [] h
  end.

(** An operation that computes [r] and returns it. *)
Definition returning (r : result jsval) (h : list object) : outcome :=
  mkOutcome r [] h.

(** An operation that computes [r] and passes it to [cb]. *)
Definition passing (r : result jsval) (cb : jsval) (h : list object) : outcome :=
  match r with
  | Return v => invoke cb v h
  | _ => mkOutcome r [] h
  end.

(** A path argument is used as a string ([name.replace], [path.resolve]);
    any other value makes that use throw. *)
Definition as_path (p : jsval) : result string :=
  match p with
  | JStr s => Return s
  | _ => Throw (TypeError "path is not a string")
  end.

(** The type of a mock operation: argument list, tree, heap. *)
Abbreviation method := (list jsval → VirtualEntries → list object → outcome).

Section Binding.

(** [process.cwd()] *)
Variable cwd : string.

(** The [isDirectory] method of the object built by [stat]: the entry is
    looked up when the method is called. *)
Definition stats_isDirectory (ve : VirtualEntries) (h : list object)
    (stats : jsval) : result bool :=
  match stats with
  | JStats path =>
      p ← as_path path;
      ent ← getEntry cwd ve p;
      o ← deref h ent;
      Return (isDirectory o)
  | _ => Throw (TypeError "isDirectory is not a function")
  end.

Definition mkdirSync : method := λ args ve h,
  returning (Return JUndefined) h.

Definition statSync : method := λ args ve h,
  returning (Return (JStats (arg 0 args))) h.

Definition stat : method := λ args ve h,
  invoke (arg 1 args) (JStats (arg 0 args)) h.

(** [ent.getEntries().map(function(ent) { return ent.getName() })] *)
Fixpoint names_of (h : list object) (entries : list child) : result (list jsval) :=
  match entries with
  | [] => Return []
  | CEntry l :: rest =>
      o ← deref h l;
      names ← names_of h rest;
      Return (JStr (getName o) :: names)
  | CArray _ :: _ => Throw (TypeError "ent.getName is not a function")
  end.

Definition readdir_names (ve : VirtualEntries) (h : list object) (path : jsval)
  : result jsval :=
  p ← as_path path;
  ent ← getEntry cwd ve p;
  o ← deref h ent;
  _ ← assert_ok (isDirectory o) (p +:+ " is not a directory");
  match o with
  | Directory _ entries => names ← names_of h entries; Return (JArr names)
  | File _ _ => Throw (TypeError "unreachable")
  end.

(** The first function assigned to [this.readdirSync] (lines 237-243). *)
Definition readdirSync_returning : method := λ args ve h,
  returning (readdir_names ve h (arg 0 args)) h.

(** The second function assigned to [this.readdirSync] (lines 245-251). *)
Definition readdirSync : method := λ args ve h,
  passing (readdir_names ve h (arg 0 args)) (arg 1 args) h.

Definition realpath_of (ve : VirtualEntries) (path : jsval) : result jsval :=
  p ← as_path path;
  Return (JStr (getRealpath cwd ve p)).

Definition realpathSync : method := λ args ve h,
  returning (realpath_of ve (arg 0 args)) h.

Definition realpath : method := λ args ve h,
  passing (realpath_of ve (arg 0 args)) (arg 1 args) h.

Definition read_content (ve : VirtualEntries) (h : list object) (path : jsval)
  : result jsval :=
  p ← as_path path;
  ent ← getEntry cwd ve p;
  o ← deref h ent;
  _ ← assert_ok (isFile o) ("ENOENT " +:+ p +:+ " no such file.");
  getContent o.

Definition readFileSync : method := λ args ve h,
  returning (read_content ve h (arg 0 args)) h.

Definition readFile : method := λ args ve h,
  passing (read_content ve h (arg 0 args)) (arg 2 args) h.

(** The body shared by the two write operations; the result is the entry
    whose content was replaced and the new heap. *)
Definition write_content (ve : VirtualEntries) (h : list object)
    (path content : jsval) : result (list object) :=
  p ← as_path path;
  ent ← getEntry cwd ve p;
  o ← deref h ent;
  _ ← assert_ok (isFile o) ("ENOENT " +:+ p +:+ " no such file.");
  o' ← setContent content o;
  Return (<[ent := o']> h).

Definition writeFileSync : method := λ args ve h,
  match write_content ve h (arg 0 args) (arg 1 args) with
  | Return h' => returning (Return JUndefined) h'
  | Throw e => returning (Throw e) h
  | Diverge => returning Diverge h
  end.

Definition writeFile : method := λ args ve h,
  match write_content ve h (arg 0 args) (arg 1 args) with
  | Return h' => invoke (arg 3 args) JUndefined h'
  | Throw e => returning (Throw e) h
  | Diverge => returning Diverge h
  end.

(** The assignments of [Filesystem.prototype.resetSpies], in order. *)
Definition resetSpies : list (string * method) :=
  [ ("mkdirSync", mkdirSync);
    ("statSync", statSync);
    ("stat", stat);
    ("readdirSync", readdirSync_returning);
    ("readdirSync", readdirSync);
    ("realpathSync", realpathSync);
    ("realpath", realpath);
    ("readFileSync", readFileSync);
    ("readFile", readFile);
    ("writeFileSync", writeFileSync);
    ("writeFile", writeFile) ].

(** [new Filesystem(entries)]: the properties of the object after
    [resetSpies]; a later assignment to a property replaces an earlier one. *)
Definition Filesystem : gmap string method :=
  foldl (λ this kv, <[kv.1 := kv.2]> this) ∅ resetSpies.

(** [fs.name(...args)] *)
Definition call (name : string) (args : list jsval) (ve : VirtualEntries)
    (h : list object) : outcome :=
  match Filesystem !! name with
  | Some m => m args ve h
  | None => mkOutcome (Throw (TypeError (name +:+ " is not a function"))) [] h
  end.

End Binding.

(** * Vocabulary of the properties *)

(** ** Paths *)

Fixpoint has_char (c : ascii) (s : string) : bool :=
  match s with
  | EmptyString => false
  | String c' s' => bool_decide (c' = c) || has_char c s'
  end.

(** A segment that survives normalisation of an absolute path. *)
Definition plain_segment (p : string) : Prop :=
  p ≠ "" ∧ has_char "/" p = false ∧ p ≠ "." ∧ p ≠ "..".

(** The shape of every absolute result of [path.resolve]. *)
Definition absolute_of (segs : list string) : string := "/" +:+ join "/" segs.

(** ** Reading JSON text *)

(** [JSON.parse] on the texts that [JSON.stringify] writes without an
    indentation argument: no white space between tokens, and numbers that
    are integers in decimal notation.  It is what the properties below mean
    by "JSON text of a value". *)

Definition is_digit (c : ascii) : bool :=
  let n := nat_of_ascii c in (48 <=? n) && (n <=? 57).

Fixpoint parse_digits (acc : N) (s : string) : N * string :=
  match s with
  | String c s' =>
      if is_digit c
      then parse_digits (acc * 10 + N.of_nat (nat_of_ascii c - 48))%N s'
      else (acc, s)
  | EmptyString => (acc, s)
  end.

(** An integer: an optional minus sign, then [0] or a digit other than [0]
    followed by digits; no fraction and no exponent may follow. *)
Definition parse_number (s : string) : option (Z * string) :=
  let '(negative, s1) :=
    match s with
    | String c s' => if decide (c = "-"%char) then (true, s') else (false, s)
    | EmptyString => (false, s)
    end in
  match s1 with
  | String c s2 =>
      if negb (is_digit c) then None
      else
        let '(n, rest) :=
          if decide (c = "0"%char) then (0%N, s2) else parse_digits 0 s1 in
        if negative && (n =? 0)%N then None
        else
          match rest with
          | String c' _ =>
              if is_digit c' || bool_decide (c' = "."%char)
                 || bool_decide (c' = "e"%char) || bool_decide (c' = "E"%char)
              then None
              else Some (if negative then (- Z.of_N n)%Z else Z.of_N n, rest)
          | EmptyString =>
              Some (if negative then (- Z.of_N n)%Z else Z.of_N n, rest)
          end
  | EmptyString => None
  end.

Definition hex_value (c : ascii) : option nat :=
  let n := nat_of_ascii c in
  if (48 <=? n) && (n <=? 57) then Some (n - 48)
  else if (97 <=? n) && (n <=? 102) then Some (n - 87)
  else if (65 <=? n) && (n <=? 70) then Some (n - 55)
  else None.

(** The character an escape letter stands for. *)
Definition unescape (e : ascii) : option ascii :=
  if decide (e = DQUOTE) then Some DQUOTE
  else if decide (e = BACKSLASH) then Some BACKSLASH
  else if decide (e = "/"%char) then Some "/"%char
  else if decide (e = "b"%char) then Some (ascii_of_nat 8)
  else if decide (e = "t"%char) then Some (ascii_of_nat 9)
  else if decide (e = "n"%char) then Some (ascii_of_nat 10)
  else if decide (e = "f"%char) then Some (ascii_of_nat 12)
  else if decide (e = "r"%char) then Some (ascii_of_nat 13)
  else None.

(** The characters of a string up to its closing quote. *)
Fixpoint parse_chars (s : string) : option (string * string) :=
  match s with
  | EmptyString => None
  | String c s' =>
      if decide (c = DQUOTE) then Some ("", s')
      else if decide (c = BACKSLASH) then
        match s' with
        | String e s'' =>
            match unescape e with
            | Some ch =>
                r ← parse_chars s''; Some (String ch r.1, r.2)
            | None =>
                if decide (e = "u"%char) then
                  match s'' with
                  | String h1 (String h2 (String h3 (String h4 s3))) =>
                      a ← hex_value h1; b ← hex_value h2;
                      c ← hex_value h3; d ← hex_value h4;
                      if decide (a = 0 ∧ b = 0) then
                        r ← parse_chars s3;
                        Some (String (ascii_of_nat (16 * c + d)) r.1, r.2)
                      else None
                  | _ => None
                  end
                else None
            end
        | EmptyString => None
        end
      else if nat_of_ascii c <? 32 then None
      else r ← parse_chars s'; Some (String c r.1, r.2)
  end.

Fixpoint strip_prefix (p s : string) : option string :=
  match p with
  | EmptyString => Some s
  | String c p' =>
      match s with
      | String c' s' => if decide (c = c') then strip_prefix p' s' else None
      | EmptyString => None
      end
  end.

(** A value of compact JSON text (no white space), and what follows it. *)
Fixpoint parse_value (fuel : nat) (s : string) : option (jsval * string) :=
  match fuel with
  | O => None
  | S fuel =>
      match s with
      | EmptyString => None
      | String c rest =>
          if decide (c = "n"%char) then
            rest' ← strip_prefix "ull" rest; Some (JNull, rest')
          else if decide (c = "t"%char) then
            rest' ← strip_prefix "rue" rest; Some (JBool true, rest')
          else if decide (c = "f"%char) then
            rest' ← strip_prefix "alse" rest; Some (JBool false, rest')
          else if decide (c = DQUOTE) then
            r ← parse_chars rest; Some (JStr r.1, r.2)
          else if decide (c = "["%char) then
            match rest with
            | String c' rest' =>
                if decide (c' = "]"%char) then Some (JArr [], rest')
                else r ← parse_elements fuel rest; Some (JArr r.1, r.2)
            | EmptyString => None
            end
          else if decide (c = "{"%char) then
            match rest with
            | String c' rest' =>
                if decide (c' = "}"%char) then Some (JObj [], rest')
                else r ← parse_members fuel rest; Some (JObj r.1, r.2)
            | EmptyString => None
            end
          else
            r ← parse_number s; Some (JNum r.1, r.2)
      end
  end
with parse_elements (fuel : nat) (s : string) : option (list jsval * string) :=
  match fuel with
  | O => None
  | S fuel =>
      r ← parse_value fuel s;
      match r.2 with
      | String c rest =>
          if decide (c = ","%char) then
            more ← parse_elements fuel rest; Some (r.1 :: more.1, more.2)
          else if decide (c = "]"%char) then Some ([r.1], rest)
          else None
      | EmptyString => None
      end
  end
with parse_members (fuel : nat) (s : string)
  : option (list (string * jsval) * string) :=
  match fuel with
  | O => None
  | S fuel =>
      match s with
      | String q s1 =>
          if decide (q = DQUOTE) then
            key ← parse_chars s1;
            match key.2 with
            | String colon s2 =>
                if decide (colon = ":"%char) then
                  r ← parse_value fuel s2;
                  match r.2 with
                  | String c rest =>
                      if decide (c = ","%char) then
                        more ← parse_members fuel rest;
                        Some ((key.1, r.1) :: more.1, more.2)
                      else if decide (c = "}"%char) then
                        Some ([(key.1, r.1)], rest)
                      else None
                  | EmptyString => None
                  end
                else None
            | EmptyString => None
            end
          else None
      | EmptyString => None
      end
  end.

(** [JSON.parse] on compact text. *)
Definition JSON_parse (text : string) : option jsval :=
  r ← parse_value (2 * String.length text) text;
  if decide (r.2 = "") then Some r.1 else None.


(** *** Plain data *)

(** The values that JSON text denotes and that the model represents
    exactly: [null], booleans, integers that a double holds exactly,
    strings of ASCII characters, arrays of such values, and objects whose
    keys are distinct, are enumerated in insertion order (no key is an
    integer index) and are not [__proto__]. *)

(** Characters below 128 only. *)
Fixpoint ascii_only (s : string) : bool :=
  match s with
  | EmptyString => true
  | String c s' => (nat_of_ascii c <? 128) && ascii_only s'
  end.

(** Decimal digits only. *)
Fixpoint all_digits (s : string) : bool :=
  match s with
  | EmptyString => true
  | String c s' => is_digit c && all_digits s'
  end.

(** A canonical numeric string, which an engine lists before the other keys. *)
Definition numeric_key (k : string) : bool :=
  match k with
  | EmptyString => false
  | String c k' =>
      is_digit c && all_digits k'
      && (negb (bool_decide (c = "0"%char)) || bool_decide (k' = ""))
  end.

(** A key that an object lists in insertion order. *)
Definition plain_key (k : string) : bool :=
  ascii_only k && negb (numeric_key k) && negb (bool_decide (k = "__proto__")).

(** Plain data, as described above. *)
Fixpoint is_json_data (v : jsval) : bool :=
  match v with
  | JNull | JBool _ => true
  | JNum n => (Z.abs n <? 2 ^ 53)%Z
  | JStr s => ascii_only s
  | JArr elems => forallb is_json_data elems
  | JObj props =>
      forallb (λ kv, match kv with (k, x) => plain_key k && is_json_data x end) props
      && bool_decide (NoDup (map fst props))
  | JUndefined | JFunction _ | JStats _ => false
  end.

(** What may follow a value in the text of an enclosing value. *)
Definition delimited (rest : string) : Prop :=
  match rest with
  | EmptyString => True
  | String c _ => c = ","%char ∨ c = "]"%char ∨ c = "}"%char
  end.

(** The text of the members of an object, in the order of its properties. *)
Fixpoint json_members (props : list (string * jsval)) : list string :=
  match props with
  | [] => []
  | (k, x) :: props' =>
      match stringify x with
      | None => json_members props'
      | Some s => (json_quote k +:+ ":" +:+ s) :: json_members props'
      end
  end.

(** A text that does not open with the bracket that closes an array. *)
Definition opens_value (text : string) : Prop :=
  match text with
  | String c _ => c ≠ "]"%char
  | EmptyString => False
  end.

(** [stringify] gives a text for [v], and reading that text, whatever
    follows it inside an enclosing value, gives [v] back. *)
Definition reads_back (v : jsval) : Prop :=
  ∃ text,
    stringify v = Some text ∧ opens_value text
    ∧ ∀ fuel rest,
        2 * (String.length text + String.length rest) ≤ fuel →
        delimited rest →
        parse_value fuel (text +:+ rest) = Some (v, rest).

(** No object inside [v], nor [v] itself, has a method [toJSON]. *)
Fixpoint toJSON_free (v : jsval) : bool :=
  match v with
  | JArr elems => forallb toJSON_free elems
  | JObj props =>
      negb (has_toJSON props)
      && forallb (λ kv, match kv with (_, x) => toJSON_free x end) props
  | _ => true
  end.

(** ** Reading the model *)

(** The content of the File that [createFile name rest] allocates. *)
Definition created_content (name : string) (rest : list jsval) (h : list object)
  : result jsval :=
  let '(l, h') := createFile name rest h in
  o ← deref h' l; getContent o.

(** [ve'] has the root of [ve] and every binding of its main index. *)
Definition extends (ve ve' : VirtualEntries) : Prop :=
  _root ve' = _root ve
  ∧ ∀ k e, _entries ve !! k = Some e → _entries ve' !! k = Some e.

(** The call fails with the Not-Found assertion before anything else
    happens: no callback has run and the heap is the one it started from. *)
Definition fails_not_found (o : outcome) (h : list object) : Prop :=
  (∃ name, completion o
           = Throw (AssertionError ("ENOENT " +:+ name +:+ " no such file or directory.")))
  ∧ calls o = [] ∧ after o = h.


(** Heaps built bottom-up: the children of a Directory were allocated
    before it. *)
Definition ordered (h : list object) : Prop :=
  ∀ l n content c,
    h !! l = Some (Directory n content) → CEntry c ∈ content → c < l.


(** [visits cwd h root name entry k e]: the call [_add(name, entry)] makes,
    itself or through its recursive calls, the call [_add(k, e)]. *)
Inductive visits (cwd : string) (h : list object) (root : string)
  : string → loc → string → loc → Prop :=
| visits_here name entry :
    visits cwd h root name entry name entry
| visits_child name entry n content c co k e :
    h !! entry = Some (Directory n content) →
    CEntry c ∈ content →
    h !! c = Some co →
    visits cwd h root
      (path_resolve cwd [root; name +:+ "/" +:+ getName co]) c k e →
    visits cwd h root name entry k e.

(** What a returning call of [_add] or of one of its loops has done to the
    main index, for the calls [_add(k, e)] in [seen]: each such path is
    mapped, and whatever a path is mapped to was mapped before or is an
    entry the walk inserted there. *)
Definition indexed (seen : string → loc → Prop) (ve ve' : VirtualEntries) : Prop :=
  extends ve ve'
  ∧ (∀ k e, seen k e → is_Some (_entries ve' !! k))
  ∧ (∀ k e', _entries ve' !! k = Some e' →
             _entries ve !! k = Some e' ∨ seen k e').

(** The calls made for the children [content] of the directory at [name]. *)
Definition visits_children (cwd : string) (h : list object)
    (root name : string) (content : list child) (k : string) (e : loc) : Prop :=
  ∃ c co, CEntry c ∈ content ∧ h !! c = Some co
          ∧ visits cwd h root
              (path_resolve cwd [root; name +:+ "/" +:+ getName co]) c k e.

(** The calls [_add(k, e)] that [add(entries)] makes on the heap [h]. *)
Definition visits_added (cwd : string) (h : list object) (root : string)
    (entries : list loc) (k : string) (e : loc) : Prop :=
  ∃ x o, x ∈ entries ∧ h !! x = Some o
         ∧ visits cwd h root (path_resolve cwd [root; getName o]) x k e.

(** ** Trees a program can build *)

(** The worlds a caller reaches: a tree is constructed, entries are added,
    files are written through the mock operations, and further entries are
    allocated with [createFile] and [createDir]. *)
Inductive reachable (cwd : string) : world → Prop :=
| reachable_new fuel h w :
    new_VirtualEntries cwd fuel None h = Return w → reachable cwd w
| reachable_add fuel entries w w' :
    reachable cwd w → add cwd fuel entries w = Return w' → reachable cwd w'
| reachable_write w path content h' :
    reachable cwd w →
    write_content cwd (tree w) (heap w) path content = Return h' →
    reachable cwd (mkWorld h' (tree w))
| reachable_createFile w name rest :
    reachable cwd w →
    reachable cwd (mkWorld (createFile name rest (heap w)).2 (tree w))
| reachable_createDir w name children :
    reachable cwd w →
    reachable cwd (mkWorld (createDir name children (heap w)).2 (tree w)).

(** The root path is indexed and is a Directory. *)
Definition root_is_directory (w : world) : Prop :=
  ∃ r n es, getEntries (tree w) !! _root (tree w) = Some r
            ∧ heap w !! r = Some (Directory n es).

(** Every location in the main index is allocated. *)
Definition index_allocated (h : list object) (ve : VirtualEntries) : Prop :=
  ∀ k l, getEntries ve !! k = Some l → is_Some (h !! l).

(** The files-only index holds Files only, under paths that the main index
    has too. *)
Definition files_index_sound (h : list object) (ve : VirtualEntries) : Prop :=
  ∀ k l, getFiles ve !! k = Some l →
         (∃ n c, h !! l = Some (File n c)) ∧ is_Some (getEntries ve !! k).

(** Every object of [h] is still in [h'], at the same location, of the same
    kind and with the same name. *)
Definition grows (h h' : list object) : Prop :=
  ∀ l o, h !! l = Some o →
         ∃ o', h' !! l = Some o' ∧ isFile o' = isFile o ∧ getName o' = getName o.

(** [y] is an element of the children of the Directory [x]. *)
Definition child_of (h : list object) (x y : loc) : Prop :=
  ∃ n content, h !! x = Some (Directory n content) ∧ CEntry y ∈ content.

(** [y] is a descendant of [x]: a child, or a child of a descendant. *)
Inductive descendant (h : list object) : loc → loc → Prop :=
| descendant_child x y : child_of h x y → descendant h x y
| descendant_step x y z : child_of h x y → descendant h y z → descendant h x z.

(** A path in normal form: absolute, no empty, [.] or [..] segment, and no
    backslash. *)
Definition normal_path (p : string) : Prop :=
  (∃ segs, Forall plain_segment segs ∧ p = absolute_of segs)
  ∧ has_char BACKSLASH p = false.

(** ** Fixtures *)

Definition CWD : string := "/home/u".

(** The entries of the example scenario, as the caller builds them:
    [createDir("root", createFile("a.txt", "hello"), createDir("sub"))]. *)
Definition example_entries : list object :=
  [ File "a.txt" (JStr "hello");
    Directory "sub" [];
    Directory "root" [CEntry 0; CEntry 1] ].

(** The tree [new VirtualEntries(root)] built from them. *)
Definition example_world : world :=
  mkWorld
    (example_entries ++ [Directory "/home/u" [CArray [2]]])
    (mkVirtualEntries
       (list_to_map [ ("/home/u", 3); ("/home/u/root", 2);
                      ("/home/u/root/a.txt", 0); ("/home/u/root/sub", 1) ])
       {[ "/home/u/root/a.txt" := 0 ]}
       "/home/u").

(** The tree of the example before its entries are added:
    [new VirtualEntries()] after the entries were allocated. *)
Definition example_empty_world : world :=
  mkWorld (example_entries ++ [Directory "/home/u" []])
    (mkVirtualEntries {[ "/home/u" := 3 ]} ∅ "/home/u").

(** Two files with one name, and a tree that indexes the first. *)
Definition two_files : list object :=
  [ File "a" (JStr "1"); File "a" (JStr "2") ].

Definition first_indexed : VirtualEntries :=
  mkVirtualEntries {[ "/home/u/a" := 0 ]} {[ "/home/u/a" := 0 ]} "/home/u".


(** A file whose name contains a backslash. *)
Definition backslash_entries : list object := [ File "a\b" (JStr "x") ].

(** * Properties *)

(** ** Path resolution *)

Example ex_resolve1 : path_resolve "/home/u" ["/home/u"; "root/a.txt"] = "/home/u/root/a.txt".
Proof. vm_compute. reflexivity. Qed.
Example ex_resolve2 : path_resolve "/home/u" ["/home/u"; "root/../b/./c//"] = "/home/u/b/c".
Proof. vm_compute. reflexivity. Qed.
Example ex_resolve3 : path_resolve "/home/u" ["/home/u"; "/../.."] = "/".
Proof. vm_compute. reflexivity. Qed.


Lemma append_nil_l (s : string) : "" +:+ s = s.
Proof. reflexivity. Qed.

Lemma append_cons (c : ascii) (s t : string) :
  String c s +:+ t = String c (s +:+ t).
Proof. reflexivity. Qed.

Lemma append_nil_r (s : string) : s +:+ "" = s.
Proof.
  induction s as [|c s IH]; [done|]. by rewrite append_cons, IH.
Qed.

Lemma split_slash_nonnil (s : string) : split_slash s ≠ [].
Proof.
  destruct s as [|c s]; simpl; [done|].
  case_decide; [done|]. by destruct (split_slash s).
Qed.

Lemma split_slash_app (x y : string) :
  split_slash (x +:+ String "/" y) = split_slash x ++ split_slash y.
Proof.
  induction x as [|c x IH].
  - by rewrite append_nil_l.
  - rewrite append_cons. simpl. case_decide; [by rewrite IH|].
    rewrite IH. pose proof (split_slash_nonnil x).
    by destruct (split_slash x).
Qed.

Lemma split_slash_plain (p : string) :
  has_char "/" p = false → split_slash p = [p].
Proof.
  induction p as [|c p IH]; simpl; [done|].
  intros [Hc Hp]%orb_false_elim. apply bool_decide_eq_false in Hc.
  rewrite decide_False by done. by rewrite IH.
Qed.

Lemma split_slash_no_slash (s p : string) :
  p ∈ split_slash s → has_char "/" p = false.
Proof.
  revert p. induction s as [|c s IH]; simpl; intros p Hp.
  - apply list_elem_of_singleton in Hp. by subst.
  - case_decide.
    + apply elem_of_cons in Hp as [->|Hp]; [done | by apply IH].
    + pose proof (split_slash_nonnil s).
      destruct (split_slash s) as [|h t] eqn:E; [done|].
      apply elem_of_cons in Hp as [->|Hp].
      * simpl. rewrite bool_decide_eq_false_2 by done.
        apply IH. by left.
      * apply IH. by right.
Qed.

Lemma segments_app (x y : string) :
  segments (x +:+ String "/" y) = segments x ++ segments y.
Proof. unfold segments. by rewrite split_slash_app, filter_app. Qed.

Lemma segments_empty : segments "" = [].
Proof. done. Qed.

Lemma segments_plain (p : string) :
  p ≠ "" → has_char "/" p = false → segments p = [p].
Proof.
  intros Hne Hp. unfold segments. rewrite split_slash_plain by done.
  rewrite filter_cons_True by done. done.
Qed.

Lemma segments_spec (s p : string) :
  p ∈ segments s → p ≠ "" ∧ has_char "/" p = false.
Proof.
  unfold segments. intros [Hne Hp]%list_elem_of_filter.
  split; [done | by eapply split_slash_no_slash].
Qed.

Lemma segments_join (segs : list string) :
  Forall plain_segment segs → segments (join "/" segs) = segs.
Proof.
  induction 1 as [|p segs (Hne & Hs & _) _ IH]; [done|].
  destruct segs as [|q segs].
  - simpl. by apply segments_plain.
  - change (join "/" (p :: q :: segs)) with (p +:+ String "/" (join "/" (q :: segs))).
    rewrite segments_app, IH, segments_plain by done. done.
Qed.

Lemma normalize_go_plain (stack parts : list string) :
  Forall plain_segment stack →
  Forall (λ p, p ≠ "" ∧ has_char "/" p = false) parts →
  Forall plain_segment (normalize_go false stack parts).
Proof.
  revert stack. induction parts as [|p ps IH]; simpl; intros stack Hst Hps.
  - apply Forall_forall. intros x Hx%list_elem_of_In%in_rev%list_elem_of_In.
    by eapply Forall_forall in Hst.
  - apply Forall_cons in Hps as [[Hp1 Hp2] Hps].
    case_decide; [by apply IH|].
    case_decide.
    + destruct stack as [|top below]; [by apply IH|].
      apply Forall_cons in Hst as [Htop Hbelow].
      case_decide; [|by apply IH].
      subst. by destruct Htop as (_ & _ & _ & ?).
    + apply IH; [|done]. by apply Forall_cons.
Qed.

Lemma normalize_go_fixed (a : bool) (stack parts : list string) :
  Forall plain_segment parts →
  normalize_go a stack parts = rev stack ++ parts.
Proof.
  revert stack. induction parts as [|p ps IH]; simpl; intros stack Hps.
  - by rewrite app_nil_r.
  - apply Forall_cons in Hps as [(_ & _ & Hd & Hdd) Hps].
    rewrite !decide_False by done. rewrite IH by done.
    simpl. by rewrite <- app_assoc.
Qed.

Lemma resolve_scan_absolute (p : string) (rest : list string) :
  is_absolute p = true →
  resolve_scan (p :: rest) "" = (p +:+ "/", true).
Proof.
  intros Hp. simpl. destruct p as [|c p]; [done|].
  rewrite decide_False by done. by rewrite Hp.
Qed.

Lemma resolve_scan_cwd (cwd : string) (front : list string) (acc : string) :
  is_absolute cwd = true →
  ∃ p, resolve_scan (front ++ [cwd]) acc = (p, true).
Proof.
  intros Hcwd. revert acc. induction front as [|x front IH]; simpl; intros acc.
  - destruct cwd as [|c cwd]; [done|]. rewrite decide_False by done.
    rewrite Hcwd. eauto.
  - case_decide; [apply IH|]. destruct (is_absolute x); [eauto | apply IH].
Qed.

Lemma path_resolve_shape (cwd : string) (args : list string) :
  is_absolute cwd = true →
  ∃ segs, Forall plain_segment segs ∧ path_resolve cwd args = absolute_of segs.
Proof.
  intros Hcwd. unfold path_resolve.
  change (rev (cwd :: args)) with (rev args ++ [cwd]).
  destruct (resolve_scan_cwd cwd (rev args) "" Hcwd) as [p ->]. simpl.
  exists (normalizeArray (segments p) false). split; [|done].
  apply normalize_go_plain; [done|].
  apply Forall_forall. intros x Hx. by eapply segments_spec.
Qed.

Lemma path_resolve_absolute_of (cwd root : string) (segs : list string) :
  Forall plain_segment segs →
  path_resolve cwd [root; absolute_of segs] = absolute_of segs.
Proof.
  intros Hsegs. unfold path_resolve.
  change (rev [cwd; root; absolute_of segs]) with [absolute_of segs; root; cwd].
  rewrite resolve_scan_absolute by done. simpl.
  unfold absolute_of.
  change (String "/" (join "/" segs +:+ "/"))
    with ("" +:+ String "/" (join "/" segs +:+ String "/" "")).
  rewrite !segments_app.
  change ("/" +:+ join "/" segs) with ("" +:+ String "/" (join "/" segs)) at 1.
  rewrite segments_app, segments_join, segments_empty by done. simpl.
  rewrite app_nil_r. unfold normalizeArray.
  by rewrite normalize_go_fixed.
Qed.

(** Resolving a resolved path changes nothing. *)
Lemma path_resolve_idempotent (cwd root root' name : string) :
  is_absolute cwd = true →
  path_resolve cwd [root'; path_resolve cwd [root; name]]
  = path_resolve cwd [root; name].
Proof.
  intros Hcwd.
  destruct (path_resolve_shape cwd [root; name] Hcwd) as (segs & Hsegs & ->).
  by apply path_resolve_absolute_of.
Qed.

(** ** Entry model: file content *)

Lemma deref_alloc (h : list object) (o : object) :
  deref (h ++ [o]) (List.length h) = Return o.
Proof. unfold deref. by rewrite list_lookup_middle. Qed.

Lemma string_eqb_empty (s : string) : String.eqb s "" = true → s = "".
Proof. by destruct s. Qed.

Lemma falsy_not_record (v : jsval) :
  truthy v = false → Object_prototype_toString v ≠ "[object Object]".
Proof. by destruct v. Qed.

Lemma _createContent_falsy (v : jsval) :
  truthy v = false → _createContent v = JStr "".
Proof.
  intros Hv. unfold _createContent.
  rewrite decide_False by by apply falsy_not_record.
  unfold js_or. by rewrite Hv.
Qed.

Lemma _createContent_string (s : string) : _createContent (JStr s) = JStr s.
Proof.
  unfold _createContent, js_or. simpl.
  destruct (String.eqb s "") eqn:E; [|done].
  by apply string_eqb_empty in E as ->.
Qed.

Lemma created_content_eq (name : string) (rest : list jsval) (h : list object) :
  created_content name rest h = Return (_createContent (arg 0 rest)).
Proof. unfold created_content, createFile. by rewrite deref_alloc. Qed.

(** ** JSON text *)

Lemma append_assoc (a b c : string) : (a +:+ b) +:+ c = a +:+ b +:+ c.
Proof. induction a as [|x a IH]; [done|]. by rewrite !append_cons, IH. Qed.

Lemma length_append (a b : string) :
  String.length (a +:+ b) = String.length a + String.length b.
Proof.
  induction a as [|x a IH]; [done|]. rewrite append_cons. simpl. by rewrite IH.
Qed.

Lemma parse_chars_escape (c : ascii) (tail : string) :
  parse_chars (json_escape c +:+ tail)
  = (r ← parse_chars tail; Some (String c r.1, r.2)).
Proof. destruct c as [[] [] [] [] [] [] [] []]; reflexivity. Qed.

Lemma parse_chars_quoted (s rest : string) :
  parse_chars (json_escape_string s +:+ String DQUOTE rest) = Some (s, rest).
Proof.
  induction s as [|c s IH]; [done|].
  simpl json_escape_string. rewrite append_assoc, parse_chars_escape, IH. done.
Qed.

(** *** Numbers *)

Lemma pretty_N_char_digit (y : N) :
  (y < 10)%N →
  is_digit (pretty_N_char y) = true
  ∧ N.of_nat (nat_of_ascii (pretty_N_char y) - 48) = y.
Proof.
  intros Hy.
  assert (y = 0 ∨ y = 1 ∨ y = 2 ∨ y = 3 ∨ y = 4 ∨ y = 5 ∨ y = 6 ∨ y = 7
          ∨ y = 8 ∨ y = 9)%N as H by lia.
  repeat destruct H as [->|H]; [done..|]. by subst.
Qed.

Lemma pretty_N_go_append (x : N) (s rest : string) :
  pretty_N_go x s +:+ rest = pretty_N_go x (s +:+ rest).
Proof.
  revert s. induction (N.lt_wf_0 x) as [x _ IH]; intros s.
  destruct (decide (x = 0)%N) as [->|Hx]; [by rewrite !pretty_N_go_0|].
  rewrite (pretty_N_go_step x s), (pretty_N_go_step x (s +:+ rest)) by lia.
  rewrite IH; [reflexivity|]. apply N.div_lt; lia.
Qed.

Lemma parse_digits_pretty (x : N) (s : string) :
  parse_digits 0 (pretty_N_go x s) = parse_digits x s.
Proof.
  revert s. induction (N.lt_wf_0 x) as [x _ IH]; intros s.
  destruct (decide (x = 0)%N) as [->|Hx]; [by rewrite pretty_N_go_0|].
  rewrite pretty_N_go_step by lia. rewrite IH by (apply N.div_lt; lia).
  assert (x `mod` 10 < 10)%N as Hm by (apply N.mod_lt; lia).
  destruct (pretty_N_char_digit _ Hm) as [Hd Hv].
  simpl. rewrite Hd, Hv. f_equal.
  pose proof (N.div_mod x 10). lia.
Qed.

(** The first digit of a positive number is not a zero. *)
Lemma pretty_N_go_head (x : N) (s : string) :
  (0 < x)%N →
  ∃ c s', pretty_N_go x s = String c s' ∧ is_digit c = true ∧ c ≠ "0"%char.
Proof.
  revert s. induction (N.lt_wf_0 x) as [x _ IH]; intros s Hx.
  rewrite pretty_N_go_step by done.
  destruct (decide (x `div` 10 = 0)%N) as [Hz|Hnz].
  - rewrite Hz, pretty_N_go_0.
    assert (x < 10)%N as Hlt.
    { destruct (decide (x < 10)%N); [done|].
      assert (1 ≤ x `div` 10)%N; [|lia]. apply N.div_le_lower_bound; lia. }
    rewrite N.mod_small by done.
    exists (pretty_N_char x), s. split; [done|].
    assert (x = 1 ∨ x = 2 ∨ x = 3 ∨ x = 4 ∨ x = 5 ∨ x = 6 ∨ x = 7
            ∨ x = 8 ∨ x = 9)%N as H by lia.
    repeat destruct H as [->|H]; [done..|]. by subst.
  - apply IH; [apply N.div_lt; lia | by apply N.neq_0_lt_0].
Qed.

Lemma parse_digits_stop (n : N) (rest : string) :
  delimited rest → parse_digits n rest = (n, rest).
Proof.
  destruct rest as [|c rest]; [done|].
  intros [->|[->| ->]]; reflexivity.
Qed.

Lemma delimited_no_number (rest : string) :
  delimited rest →
  match rest with
  | String c' _ =>
      is_digit c' || bool_decide (c' = "."%char)
      || bool_decide (c' = "e"%char) || bool_decide (c' = "E"%char)
  | EmptyString => false
  end = false.
Proof.
  destruct rest as [|c rest]; [done|].
  intros [->|[->| ->]]; reflexivity.
Qed.

Lemma parse_number_positive (p : positive) (rest : string) :
  delimited rest →
  parse_number (pretty (Z.pos p) +:+ rest) = Some (Z.pos p, rest).
Proof.
  intros Hrest.
  change (pretty (Z.pos p)) with (pretty_N_go (N.pos p) "").
  rewrite pretty_N_go_append, append_nil_l.
  destruct (pretty_N_go_head (N.pos p) rest) as (c & s' & Heq & Hd & Hz); [lia|].
  unfold parse_number.
  assert (c ≠ "-"%char) as Hminus by (intros ->; done).
  rewrite Heq. rewrite decide_False by done. rewrite Hd. simpl negb. cbv iota.
  rewrite decide_False by done. rewrite <- Heq.
  rewrite parse_digits_pretty, parse_digits_stop by done.
  simpl andb. cbv iota.
  pose proof (delimited_no_number rest Hrest) as Hn.
  destruct rest as [|c' rest']; [done|]. by rewrite Hn.
Qed.

Lemma parse_number_negative (p : positive) (rest : string) :
  delimited rest →
  parse_number (pretty (Z.neg p) +:+ rest) = Some (Z.neg p, rest).
Proof.
  intros Hrest.
  change (pretty (Z.neg p)) with ("-" +:+ pretty_N_go (N.pos p) "").
  rewrite append_assoc, pretty_N_go_append, append_nil_l.
  destruct (pretty_N_go_head (N.pos p) rest) as (c & s' & Heq & Hd & Hz); [lia|].
  unfold parse_number. rewrite append_cons, append_nil_l.
  rewrite decide_True by done.
  rewrite Heq. rewrite Hd. simpl negb. cbv iota.
  rewrite decide_False by done. rewrite <- Heq.
  rewrite parse_digits_pretty, parse_digits_stop by done.
  simpl andb. cbv iota.
  pose proof (delimited_no_number rest Hrest) as Hn.
  destruct rest as [|c' rest']; [done|]. by rewrite Hn.
Qed.

Lemma parse_number_pretty (n : Z) (rest : string) :
  delimited rest →
  parse_number (pretty n +:+ rest) = Some (n, rest).
Proof.
  intros Hrest. destruct n as [|p|p].
  - change (pretty 0%Z) with "0". rewrite append_cons, append_nil_l.
    unfold parse_number. simpl.
    pose proof (delimited_no_number rest Hrest) as Hn.
    destruct rest as [|c' rest']; [done|]. by rewrite Hn.
  - by apply parse_number_positive.
  - by apply parse_number_negative.
Qed.

(** The first character of a printed integer. *)
Lemma pretty_Z_head (n : Z) :
  ∃ c s', pretty n = String c s' ∧ (is_digit c = true ∨ c = "-"%char).
Proof.
  destruct n as [|p|p].
  - exists "0"%char, "". by split; [|left].
  - destruct (pretty_N_go_head (N.pos p) "") as (c & s' & Heq & Hd & _); [lia|].
    exists c, s'. split; [exact Heq | by left].
  - exists "-"%char, (pretty_N_go (N.pos p) ""). split; [done | by right].
Qed.

Lemma number_to_string_safe (n : Z) :
  (Z.abs n <? 2 ^ 53)%Z = true → number_to_string n = Some (pretty n).
Proof.
  intros H. unfold number_to_string, nearest_double. by rewrite H.
Qed.

(** *** Reading back what [stringify] wrote *)

Lemma jsval_nested_ind (P : jsval → Prop) :
  P JUndefined → P JNull → (∀ b, P (JBool b)) → (∀ n, P (JNum n)) →
  (∀ s, P (JStr s)) →
  (∀ elems, Forall P elems → P (JArr elems)) →
  (∀ props, Forall (λ kv, P kv.2) props → P (JObj props)) →
  (∀ id, P (JFunction id)) → (∀ path, P (JStats path)) →
  ∀ v, P v.
Proof.
  intros Hu Hn Hb Hnum Hs Ha Ho Hf Hst. fix IH 1.
  intros [| |b|n|s|elems|props|id|path];
    [exact Hu | exact Hn | apply Hb | apply Hnum | apply Hs | | | apply Hf
    | apply Hst].
  - apply Ha. induction elems as [|x xs IHxs]; constructor; [apply IH | exact IHxs].
  - apply Ho. induction props as [|[k x] ps IHps]; constructor; [apply IH | exact IHps].
Qed.

Lemma stringify_JObj (props : list (string * jsval)) :
  stringify (JObj props)
  = if has_toJSON props then None
    else Some ("{" +:+ join "," (json_members props) +:+ "}").
Proof.
  simpl. destruct (has_toJSON props); reflexivity.
Qed.

Lemma has_toJSON_data (props : list (string * jsval)) :
  forallb (λ kv, match kv with (k, x) => plain_key k && is_json_data x end) props
  = true →
  has_toJSON props = false.
Proof.
  induction props as [|[k x] ps IH]; [done|]. simpl.
  intros [[_ Hx]%andb_true_iff Hps]%andb_true_iff.
  destruct (decide (k = "toJSON")); [|by apply IH].
  by destruct x.
Qed.

Lemma join_cons (sep p q : string) (rest : list string) :
  join sep (p :: q :: rest) = p +:+ sep +:+ join sep (q :: rest).
Proof. reflexivity. Qed.

Lemma parse_value_S (fuel : nat) (c : ascii) (rest : string) :
  parse_value (S fuel) (String c rest)
  = if decide (c = "n"%char) then
      rest' ← strip_prefix "ull" rest; Some (JNull, rest')
    else if decide (c = "t"%char) then
      rest' ← strip_prefix "rue" rest; Some (JBool true, rest')
    else if decide (c = "f"%char) then
      rest' ← strip_prefix "alse" rest; Some (JBool false, rest')
    else if decide (c = DQUOTE) then
      r ← parse_chars rest; Some (JStr r.1, r.2)
    else if decide (c = "["%char) then
      match rest with
      | String c' rest' =>
          if decide (c' = "]"%char) then Some (JArr [], rest')
          else r ← parse_elements fuel rest; Some (JArr r.1, r.2)
      | EmptyString => None
      end
    else if decide (c = "{"%char) then
      match rest with
      | String c' rest' =>
          if decide (c' = "}"%char) then Some (JObj [], rest')
          else r ← parse_members fuel rest; Some (JObj r.1, r.2)
      | EmptyString => None
      end
    else
      r ← parse_number (String c rest); Some (JNum r.1, r.2).
Proof. reflexivity. Qed.

Lemma parse_elements_S (fuel : nat) (s : string) :
  parse_elements (S fuel) s
  = r ← parse_value fuel s;
    match r.2 with
    | String c rest =>
        if decide (c = ","%char) then
          more ← parse_elements fuel rest; Some (r.1 :: more.1, more.2)
        else if decide (c = "]"%char) then Some ([r.1], rest)
        else None
    | EmptyString => None
    end.
Proof. reflexivity. Qed.

Lemma parse_members_S (fuel : nat) (k s2 : string) :
  parse_members (S fuel)
    (String DQUOTE (json_escape_string k +:+ String DQUOTE (String ":" s2)))
  = r ← parse_value fuel s2;
    match r.2 with
    | String c rest =>
        if decide (c = ","%char) then
          more ← parse_members fuel rest; Some ((k, r.1) :: more.1, more.2)
        else if decide (c = "}"%char) then Some ([(k, r.1)], rest)
        else None
    | EmptyString => None
    end.
Proof.
  change (parse_members (S fuel) (String DQUOTE ?s1))
    with (key ← parse_chars s1;
          match key.2 with
          | String colon s2 =>
              if decide (colon = ":"%char) then
                r ← parse_value fuel s2;
                match r.2 with
                | String c rest =>
                    if decide (c = ","%char) then
                      more ← parse_members fuel rest;
                      Some ((key.1, r.1) :: more.1, more.2)
                    else if decide (c = "}"%char) then
                      Some ([(key.1, r.1)], rest)
                    else None
                | EmptyString => None
                end
              else None
          | EmptyString => None
          end).
  by rewrite parse_chars_quoted.
Qed.

Lemma parse_value_number (fuel : nat) (c : ascii) (s : string) :
  is_digit c = true ∨ c = "-"%char →
  parse_value (S fuel) (String c s)
  = r ← parse_number (String c s); Some (JNum r.1, r.2).
Proof.
  intros [H| ->]; [|reflexivity].
  destruct c as [[] [] [] [] [] [] [] []]; try discriminate H; reflexivity.
Qed.

Lemma member_text (k tx rest : string) :
  (json_quote k +:+ ":" +:+ tx) +:+ rest
  = String DQUOTE
      (json_escape_string k +:+ String DQUOTE (String ":" (tx +:+ rest))).
Proof.
  unfold json_quote. rewrite !append_cons, !append_assoc. reflexivity.
Qed.

(** The elements of an array that is not empty, up to its closing bracket. *)
Lemma parse_elements_join (elems : list jsval) :
  elems ≠ [] → Forall reads_back elems →
  ∀ fuel rest,
    2 * (String.length (join "," (map (λ x, default "null" (stringify x)) elems))
         + 1 + String.length rest) + 1 ≤ fuel →
    parse_elements fuel
      (join "," (map (λ x, default "null" (stringify x)) elems)
       +:+ String "]" rest)
    = Some (elems, rest).
Proof.
  intros Hne Hall. induction Hall as [|x xs Hx Hxs IH]; [done|].
  clear Hne. intros fuel rest Hfuel.
  destruct Hx as (tx & Htx & _ & Hparse).
  destruct fuel as [|fuel]; [lia|]. rewrite parse_elements_S.
  destruct xs as [|y ys].
  - simpl in *. rewrite Htx in *. simpl in *.
    rewrite Hparse; [|rewrite ?length_append; simpl; lia | by right; left].
    reflexivity.
  - rewrite !map_cons, join_cons in *. rewrite Htx in *. simpl default in *.
    set (body := join "," (default "null" (stringify y) :: _)) in *.
    rewrite !length_append in Hfuel. simpl String.length in Hfuel.
    rewrite !append_assoc. rewrite append_cons, append_nil_l.
    rewrite Hparse; [|rewrite ?length_append; simpl; rewrite ?length_append; simpl; lia | by left].
    simpl. rewrite IH; [done|done|].
    lia.
Qed.

(** The members of an object that is not empty, up to its closing brace. *)
Lemma parse_members_join (props : list (string * jsval)) :
  props ≠ [] → Forall (λ kv, reads_back kv.2) props →
  ∀ fuel rest,
    2 * (String.length (join "," (json_members props))
         + 1 + String.length rest) + 1 ≤ fuel →
    parse_members fuel (join "," (json_members props) +:+ String "}" rest)
    = Some (props, rest).
Proof.
  intros Hne Hall. induction Hall as [|[k x] ps Hx Hps IH]; [done|].
  clear Hne. intros fuel rest Hfuel.
  destruct Hx as (tx & Htx & _ & Hparse). simpl in Htx.
  assert (json_members ((k, x) :: ps)
          = (json_quote k +:+ ":" +:+ tx) :: json_members ps) as Heq.
  { simpl. by rewrite Htx. }
  rewrite Heq in *. clear Heq.
  destruct fuel as [|fuel]; [lia|].
  destruct (json_members ps) as [|m ms] eqn:Hms.
  - destruct ps as [|[kq xq] qs].
    + change (join "," [?t]) with t in *.
      rewrite member_text, parse_members_S.
      rewrite !length_append in Hfuel. simpl String.length in Hfuel.
      rewrite Hparse; [|simpl; lia | by right; right].
      reflexivity.
    + exfalso. inversion Hps as [|?? (tq & Htq & _) _]; subst.
      simpl in Hms, Htq. by rewrite Htq in Hms.
  - rewrite join_cons in *.
    set (body := join "," (m :: ms)) in *.
    rewrite !length_append in Hfuel. simpl String.length in Hfuel.
    rewrite (append_assoc (json_quote k +:+ ":" +:+ tx)), member_text.
    rewrite parse_members_S.
    change (("," +:+ body) +:+ ?R) with (String "," (body +:+ R)).
    rewrite Hparse; [|simpl; rewrite ?length_append; simpl; lia | by left].
    simpl. rewrite IH; [done| |lia].
    intros ->. discriminate Hms.
Qed.

Lemma forallb_Forall_data (P : jsval → Prop) (elems : list jsval) :
  Forall (λ x, is_json_data x = true → P x) elems →
  forallb is_json_data elems = true → Forall P elems.
Proof.
  induction 1 as [|x xs Hx _ IH]; [constructor|]. simpl.
  intros [??]%andb_true_iff. constructor; auto.
Qed.

Lemma forallb_Forall_members (P : jsval → Prop) (props : list (string * jsval)) :
  Forall (λ kv, is_json_data kv.2 = true → P kv.2) props →
  forallb (λ kv, match kv with (k, x) => plain_key k && is_json_data x end) props
  = true →
  Forall (λ kv, P kv.2) props.
Proof.
  induction 1 as [|[k x] ps Hx _ IH]; [constructor|]. simpl.
  intros [[_ ?]%andb_true_iff ?]%andb_true_iff. constructor; auto.
Qed.

(** Every value of the data fragment is printed, and read back from its
    text. *)
Lemma data_reads_back (v : jsval) : is_json_data v = true → reads_back v.
Proof.
  induction v as [| |b|n|s|elems IH|props IH|id|path] using jsval_nested_ind;
    intros Hdata; try discriminate Hdata.
  - exists "null". split_and!; [done|by intros [=]|].
    intros fuel rest Hfuel _. destruct fuel as [|fuel]; [simpl in Hfuel; lia|].
    reflexivity.
  - exists (if b then "true" else "false").
    split_and!; [done|by destruct b; intros [=]|].
    intros fuel rest Hfuel _.
    destruct fuel as [|fuel]; [destruct b; simpl in Hfuel; lia|].
    by destruct b.
  - simpl in Hdata.
    destruct (pretty_Z_head n) as (c & s' & Hpretty & Hc).
    exists (pretty n). split_and!.
    + simpl. by rewrite number_to_string_safe.
    + rewrite Hpretty. intros ->. by destruct Hc.
    + intros fuel rest Hfuel Hrest.
      destruct fuel as [|fuel].
      { rewrite Hpretty in Hfuel. simpl in Hfuel. lia. }
      rewrite Hpretty, append_cons, parse_value_number by done.
      rewrite <- append_cons, <- Hpretty, parse_number_pretty by done.
      reflexivity.
  - exists (json_quote s). split_and!; [done|by intros [=]|].
    intros fuel rest Hfuel _.
    destruct fuel as [|fuel]; [simpl in Hfuel; lia|].
    unfold json_quote. rewrite append_cons, append_assoc, append_cons, append_nil_l.
    rewrite parse_value_S.
    change (if decide (DQUOTE = "n"%char) then ?a
            else if decide (DQUOTE = "t"%char) then ?b
            else if decide (DQUOTE = "f"%char) then ?c
            else if decide (DQUOTE = DQUOTE) then ?d else ?e) with d.
    by rewrite parse_chars_quoted.
  - simpl in Hdata. pose proof (forallb_Forall_data _ _ IH Hdata) as Hall.
    exists ("[" +:+ join "," (map (λ x, default "null" (stringify x)) elems) +:+ "]").
    split_and!; [reflexivity|by intros [=]|].
    intros fuel rest Hfuel _.
    destruct fuel as [|fuel]; [simpl in Hfuel; lia|].
    change (("[" +:+ ?J +:+ "]") +:+ rest) with (String "[" ((J +:+ "]") +:+ rest)).
    rewrite append_assoc. change ("]" +:+ rest) with (String "]" rest).
    destruct elems as [|x xs]; [reflexivity|].
    rewrite parse_value_S.
    change (if decide ("["%char = "n"%char) then ?a
            else if decide ("["%char = "t"%char) then ?b
            else if decide ("["%char = "f"%char) then ?c
            else if decide ("["%char = DQUOTE) then ?d
            else if decide ("["%char = "["%char) then ?e else ?f) with e.
    rewrite parse_elements_join; [| done | done |].
    + pose proof (Forall_inv Hall) as (tx & Htx & Hopen & _).
      assert (∃ c t, join "," (map (λ x, default "null" (stringify x)) (x :: xs))
                     = String c t ∧ c ≠ "]"%char) as (c & t & -> & Hc).
      { rewrite map_cons, Htx. simpl default.
        destruct tx as [|c t]; [done|].
        destruct (map _ xs); [by exists c, t|].
        rewrite join_cons, append_cons. by eexists c, _. }
      rewrite append_cons. by rewrite decide_False.
    + rewrite !length_append in Hfuel.
      change (String.length "[") with 1 in Hfuel.
      change (String.length "]") with 1 in Hfuel. lia.
  - simpl in Hdata. apply andb_true_iff in Hdata as [Hdata _].
    pose proof (forallb_Forall_members _ _ IH Hdata) as Hall.
    exists ("{" +:+ join "," (json_members props) +:+ "}"). split_and!.
    + rewrite stringify_JObj, has_toJSON_data by done. reflexivity.
    + by intros [=].
    + intros fuel rest Hfuel _.
      destruct fuel as [|fuel]; [simpl in Hfuel; lia|].
      change (("{" +:+ ?J +:+ "}") +:+ rest)
        with (String "{" ((J +:+ "}") +:+ rest)).
      rewrite append_assoc. change ("}" +:+ rest) with (String "}" rest).
      destruct props as [|[k x] ps]; [reflexivity|].
      rewrite parse_value_S.
      change (if decide ("{"%char = "n"%char) then ?a
              else if decide ("{"%char = "t"%char) then ?b
              else if decide ("{"%char = "f"%char) then ?c
              else if decide ("{"%char = DQUOTE) then ?d
              else if decide ("{"%char = "["%char) then ?e
              else if decide ("{"%char = "{"%char) then ?f else ?g) with f.
      rewrite parse_members_join; [| done | done |].
      * pose proof (Forall_inv Hall) as (tx & Htx & _). simpl in Htx.
        assert (∃ t, join "," (json_members ((k, x) :: ps)) = String DQUOTE t)
          as (t & ->).
        { simpl json_members. rewrite Htx.
          destruct (json_members ps); [by eexists|].
          rewrite join_cons. by eexists. }
        rewrite append_cons. reflexivity.
      * rewrite !length_append in Hfuel.
        change (String.length "{") with 1 in Hfuel.
        change (String.length "}") with 1 in Hfuel. lia.
Qed.

(** The text that [stringify] gives for a value of the data fragment is
    JSON text of that value. *)
Lemma JSON_parse_stringify (v : jsval) :
  is_json_data v = true →
  ∃ text, stringify v = Some text ∧ JSON_parse text = Some v.
Proof.
  intros (text & Htext & _ & Hparse)%data_reads_back.
  exists text. split; [done|]. unfold JSON_parse.
  specialize (Hparse (2 * String.length text) "").
  rewrite append_nil_r in Hparse. rewrite Hparse; [done| simpl; lia | done].
Qed.

(** A record without [toJSON] methods is printed. *)
Lemma stringify_record (props : list (string * jsval)) :
  toJSON_free (JObj props) = true →
  stringify (JObj props) = Some ("{" +:+ join "," (json_members props) +:+ "}").
Proof.
  simpl toJSON_free. intros [Hfree _]%andb_true_iff.
  rewrite stringify_JObj. by destruct (has_toJSON props).
Qed.

(** C7.  Content is coerced at construction only.  A plain object is stored
    as a string: for an object of plain data that string is JSON text of
    the object ([JSON.parse] of it gives the object back), and
    [createFile("a.json", {k: 1})] stores the seven characters of the
    specification's example; every object without [toJSON] methods is
    stored as the string that [JSON.stringify] gives for it, never as an
    object.  An omitted argument is stored as the empty string and a
    string as it is.  [setContent] stores whatever it is given, a plain
    object included, with no serialization. *)
Theorem File_content_coerced_at_construction_only :
  (∀ name props more h,
     is_json_data (JObj props) = true →
     ∃ text,
       created_content name (JObj props :: more) h = Return (JStr text)
       ∧ JSON_parse text = Some (JObj props))
  ∧ (∀ h,
       created_content "a.json" [JObj [("k", JNum 1)]] h
       = Return (JStr ("{" +:+ String DQUOTE ("k" +:+ String DQUOTE ":1}"))))
  ∧ (∀ name props more h,
       toJSON_free (JObj props) = true →
       ∃ text,
         created_content name (JObj props :: more) h = Return (JStr text)
         ∧ stringify (JObj props) = Some text)
  ∧ (∀ name h, created_content name [] h = Return (JStr ""))
  ∧ (∀ name s more h,
       created_content name (JStr s :: more) h = Return (JStr s))
  ∧ (∀ content name old,
       setContent content (File name old) = Return (File name content))
  ∧ (∀ props name old,
       (o ← setContent (JObj props) (File name old); getContent o)
       = Return (JObj props)).
Proof.
  split_and!; intros; rewrite ?created_content_eq; try done.
  - destruct (JSON_parse_stringify (JObj props)) as (text & Htext & Hparse);
      [done|].
    exists text. split; [|done].
    unfold arg, _createContent, JSON_stringify. simpl nth.
    rewrite decide_True by done. by rewrite Htext.
  - eexists. split; [|by apply stringify_record].
    unfold arg, _createContent, JSON_stringify. simpl nth.
    rewrite decide_True by done. by rewrite stringify_record.
  - exact (f_equal Return (_createContent_string s)).
Qed.

Lemma File_content_witness :
  (∃ text,
     created_content "a.json" [JObj [("k", JNum 1); ("l", JArr [JStr "x"; JNull])]] []
     = Return (JStr text)
     ∧ JSON_parse text
       = Some (JObj [("k", JNum 1); ("l", JArr [JStr "x"; JNull])]))
  ∧ (∃ text,
       created_content "s.json" [JObj [("f", JFunction 0); ("u", JUndefined)]] []
       = Return (JStr text)
       ∧ stringify (JObj [("f", JFunction 0); ("u", JUndefined)]) = Some text).
Proof.
  split.
  - apply (proj1 File_content_coerced_at_construction_only). reflexivity.
  - apply (proj1 (proj2 (proj2 File_content_coerced_at_construction_only))).
    reflexivity.
Defined.

(** The two construction examples of the specification:
    [createFile("a.json", {k: 1})] and [createFile("b.txt")]. *)
Example created_content_examples :
  created_content "a.json" [JObj [("k", JNum 1)]] []
  = Return (JStr ("{" +:+ String DQUOTE ("k" +:+ String DQUOTE ":1}")))
  ∧ created_content "b.txt" [] [] = Return (JStr "").
Proof. split; vm_compute; reflexivity. Qed.

(** C10.  A content argument that is falsy (such a value is never a plain
    object) is replaced by the empty string at construction. *)
Theorem File_falsy_content_stored_as_empty
    (name : string) (content : jsval) (more : list jsval) (h : list object) :
  truthy content = false →
  Object_prototype_toString content ≠ "[object Object]" →
  created_content name (content :: more) h = Return (JStr "").
Proof.
  intros Hfalsy _. rewrite created_content_eq.
  exact (f_equal Return (_createContent_falsy content Hfalsy)).
Qed.

Lemma File_falsy_content_witness :
  created_content "n.txt" [JNum 0] [] = Return (JStr "")
  ∧ created_content "n.txt" [JBool false] [] = Return (JStr "")
  ∧ created_content "n.txt" [JNull] [] = Return (JStr "")
  ∧ created_content "n.txt" [JStr ""] [] = Return (JStr "").
Proof.
  split_and!;
    apply File_falsy_content_stored_as_empty; (reflexivity || discriminate).
Defined.

(** ** The fixtures *)

(** The fixtures are what the constructors build. *)
Example example_entries_built :
  (let '(a, h) := createFile "a.txt" [JStr "hello"] [] in
   let '(s, h) := createDir "sub" [] h in
   createDir "root" [CEntry a; CEntry s] h)
  = (2, example_entries).
Proof. reflexivity. Qed.

Example example_world_built :
  new_VirtualEntries CWD 3 (Some (Single 2)) example_entries
  = Return example_world.
Proof. vm_compute. reflexivity. Qed.

(** ** Lookup in the index *)

Lemma js_in_true (k : string) (m : gmap string loc) :
  js_in k m = true ↔ is_Some (m !! k).
Proof. unfold js_in. apply bool_decide_eq_true. Qed.

Lemma js_in_false (k : string) (m : gmap string loc) :
  js_in k m = false ↔ m !! k = None.
Proof.
  unfold js_in. rewrite bool_decide_eq_false. symmetry. apply eq_None_not_Some.
Qed.

Lemma getEntry_Return (cwd : string) (ve : VirtualEntries) (p : string) (l : loc) :
  getEntry cwd ve p = Return l
  ↔ _entries ve !! path_resolve cwd [_root ve; replace_SEP p] = Some l.
Proof.
  unfold getEntry, js_in.
  destruct (_entries ve !! path_resolve cwd [_root ve; replace_SEP p]) as [l'|] eqn:E.
  - rewrite bool_decide_eq_true_2 by eauto. simpl. split; congruence.
  - rewrite bool_decide_eq_false_2 by by intros [? ?]. simpl. split; congruence.
Qed.

Lemma getEntry_absent (cwd : string) (ve : VirtualEntries) (p : string) :
  hasEntry cwd ve p = false →
  getEntry cwd ve p
  = Throw (AssertionError ("ENOENT " +:+ replace_SEP p +:+ " no such file or directory.")).
Proof. unfold hasEntry, getEntry. by intros ->. Qed.

(** ** The properties of the Filesystem object *)

Lemma Filesystem_methods (cwd : string) :
  Filesystem cwd !! "mkdirSync" = Some mkdirSync
  ∧ Filesystem cwd !! "statSync" = Some statSync
  ∧ Filesystem cwd !! "stat" = Some stat
  ∧ Filesystem cwd !! "readdirSync" = Some (readdirSync cwd)
  ∧ Filesystem cwd !! "readdir" = None
  ∧ Filesystem cwd !! "realpathSync" = Some (realpathSync cwd)
  ∧ Filesystem cwd !! "realpath" = Some (realpath cwd)
  ∧ Filesystem cwd !! "readFileSync" = Some (readFileSync cwd)
  ∧ Filesystem cwd !! "readFile" = Some (readFile cwd)
  ∧ Filesystem cwd !! "writeFileSync" = Some (writeFileSync cwd)
  ∧ Filesystem cwd !! "writeFile" = Some (writeFile cwd).
Proof. repeat split; vm_compute; reflexivity. Qed.

(** ** Building the index *)

Lemma bind_Return {A B} (r : result A) (k : A → result B) (b : B) :
  r ≫= k = Return b → ∃ a, r = Return a ∧ k a = Return b.
Proof. destruct r; simpl; [eauto | done | done]. Qed.

Lemma deref_Return (h : list object) (l : loc) (o : object) :
  deref h l = Return o ↔ h !! l = Some o.
Proof. unfold deref. destruct (h !! l); split; congruence. Qed.

Lemma extends_refl (ve : VirtualEntries) : extends ve ve.
Proof. by split. Qed.

Lemma extends_trans (a b c : VirtualEntries) :
  extends a b → extends b c → extends a c.
Proof. intros [Hr1 H1] [Hr2 H2]. split; [congruence | auto]. Qed.

Lemma index_if_absent_extends (name : string) (entry : loc) (ve : VirtualEntries) :
  extends ve (index_if_absent name entry ve).
Proof.
  unfold index_if_absent. destruct (js_in name (_entries ve)) eqn:E.
  - apply extends_refl.
  - apply js_in_false in E. split; [done|]. simpl. intros k e Hk.
    rewrite lookup_insert_ne; [done | congruence].
Qed.

Lemma index_if_absent_lookup (name : string) (entry : loc) (ve : VirtualEntries) :
  _entries (index_if_absent name entry ve) !! name
  = match _entries ve !! name with Some e => Some e | None => Some entry end.
Proof.
  unfold index_if_absent. destruct (js_in name (_entries ve)) eqn:E.
  - apply js_in_true in E as [e He]. by rewrite He.
  - apply js_in_false in E. rewrite E. simpl. apply lookup_insert_eq.
Qed.

Section Index.

Variable cwd : string.

Lemma _add_unfold (fuel : nat) (h : list object) (name : string) (entry : loc)
    (ve : VirtualEntries) :
  _add cwd (S fuel) h name entry ve
  = (o ← deref h entry;
     match o with
     | Directory _ content =>
         _add_children cwd (_add cwd fuel h) h name content
           (index_if_absent name entry ve)
     | File _ _ =>
         let ve := index_if_absent name entry ve in
         Return (mkVirtualEntries (_entries ve) (<[name := entry]> (_files ve)) (_root ve))
     end).
Proof. reflexivity. Qed.

Lemma _add_children_extends
    (recur : string → loc → VirtualEntries → result VirtualEntries)
    (h : list object) (name : string) (content : list child) :
  (∀ n l ve ve', recur n l ve = Return ve' → extends ve ve') →
  ∀ ve ve', _add_children cwd recur h name content ve = Return ve' →
            extends ve ve'.
Proof.
  intros Hrecur. induction content as [|[c|ls] rest IH]; simpl; intros ve ve' H.
  - injection H as <-. apply extends_refl.
  - apply bind_Return in H as (co & _ & H).
    apply bind_Return in H as (ve1 & H1 & H).
    eapply extends_trans; [by eapply Hrecur | by apply IH].
  - done.
Qed.

Lemma _add_extends (fuel : nat) (h : list object) :
  ∀ name entry ve ve',
    _add cwd fuel h name entry ve = Return ve' → extends ve ve'.
Proof.
  induction fuel as [|fuel IH]; intros name entry ve ve' H; [done|].
  rewrite _add_unfold in H. apply bind_Return in H as (o & _ & H).
  destruct o as [n content|n c].
  - eapply extends_trans; [apply index_if_absent_extends|].
    by eapply _add_children_extends.
  - injection H as <-.
    destruct (index_if_absent_extends name entry ve) as [Hr Hk]. by split.
Qed.

Lemma add_loop_extends (fuel : nat) (h : list object) (entries : list loc) :
  ∀ ve ve', add_loop cwd fuel h entries ve = Return ve' → extends ve ve'.
Proof.
  induction entries as [|e rest IH]; simpl; intros ve ve' H.
  - injection H as <-. apply extends_refl.
  - apply bind_Return in H as (o & _ & H).
    apply bind_Return in H as (ve1 & H1 & H).
    eapply extends_trans; [by eapply _add_extends | by apply IH].
Qed.

(** What [add] does to the world when it returns: the root Directory gains
    one element, the array of entries itself, and the index is extended. *)
Lemma add_Return (fuel : nat) (entries : entries_arg) (w w' : world) :
  add cwd fuel entries w = Return w' →
  ∃ r n old,
    _entries (tree w) !! _root (tree w) = Some r
    ∧ heap w !! r = Some (Directory n old)
    ∧ heap w' = <[r := Directory n (old ++ [CArray (as_array entries)])]> (heap w)
    ∧ extends (tree w) (tree w').
Proof.
  unfold add. intros H.
  destruct (_entries (tree w) !! _root (tree w)) as [r|] eqn:Hr; [|done].
  apply bind_Return in H as (o & Ho & H). apply deref_Return in Ho.
  apply bind_Return in H as (o' & Ho' & H).
  apply bind_Return in H as (ve' & Hve' & H). injection H as <-.
  destruct o as [n old|]; [|done]. injection Ho' as <-.
  exists r, n, old. repeat split; try done.
  - by apply add_loop_extends in Hve' as [? ?].
  - by apply add_loop_extends in Hve' as [? ?].
Qed.

End Index.

(** ** Mock operations *)

Section Operations.

Variable cwd : string.

Lemma call_method (name : string) (m : method) (args : list jsval)
    (ve : VirtualEntries) (h : list object) :
  Filesystem cwd !! name = Some m → call cwd name args ve h = m args ve h.
Proof. unfold call. by intros ->. Qed.

Lemma call_statSync (args : list jsval) (ve : VirtualEntries) (h : list object) :
  call cwd "statSync" args ve h = statSync args ve h.
Proof. apply call_method, Filesystem_methods. Qed.

Lemma call_stat (args : list jsval) (ve : VirtualEntries) (h : list object) :
  call cwd "stat" args ve h = stat args ve h.
Proof. apply call_method, Filesystem_methods. Qed.

Lemma call_readdirSync (args : list jsval) (ve : VirtualEntries) (h : list object) :
  call cwd "readdirSync" args ve h = readdirSync cwd args ve h.
Proof. apply call_method, Filesystem_methods. Qed.

Lemma call_realpathSync (args : list jsval) (ve : VirtualEntries) (h : list object) :
  call cwd "realpathSync" args ve h = realpathSync cwd args ve h.
Proof. apply call_method, Filesystem_methods. Qed.

Lemma call_realpath (args : list jsval) (ve : VirtualEntries) (h : list object) :
  call cwd "realpath" args ve h = realpath cwd args ve h.
Proof. apply call_method, Filesystem_methods. Qed.

Lemma call_readFileSync (args : list jsval) (ve : VirtualEntries) (h : list object) :
  call cwd "readFileSync" args ve h = readFileSync cwd args ve h.
Proof. apply call_method, Filesystem_methods. Qed.

Lemma call_readFile (args : list jsval) (ve : VirtualEntries) (h : list object) :
  call cwd "readFile" args ve h = readFile cwd args ve h.
Proof. apply call_method, Filesystem_methods. Qed.

Lemma call_writeFileSync (args : list jsval) (ve : VirtualEntries) (h : list object) :
  call cwd "writeFileSync" args ve h = writeFileSync cwd args ve h.
Proof. apply call_method, Filesystem_methods. Qed.

Lemma call_writeFile (args : list jsval) (ve : VirtualEntries) (h : list object) :
  call cwd "writeFile" args ve h = writeFile cwd args ve h.
Proof. apply call_method, Filesystem_methods. Qed.

Lemma call_readdir (args : list jsval) (ve : VirtualEntries) (h : list object) :
  call cwd "readdir" args ve h
  = mkOutcome (Throw (TypeError "readdir is not a function")) [] h.
Proof.
  unfold call.
  by replace (Filesystem cwd !! "readdir") with (@None method)
    by (symmetry; apply Filesystem_methods).
Qed.

Ltac fs_method :=
  rewrite ?call_statSync, ?call_stat, ?call_readdirSync, ?call_realpathSync,
    ?call_realpath, ?call_readFileSync, ?call_readFile, ?call_writeFileSync,
    ?call_writeFile.

Lemma read_content_file (ve : VirtualEntries) (h : list object) (p : string)
    (l : loc) (n : string) (c : jsval) :
  getEntry cwd ve p = Return l → h !! l = Some (File n c) →
  read_content cwd ve h (JStr p) = Return c.
Proof.
  intros Hl Ho. unfold read_content. simpl. rewrite Hl. simpl.
  apply deref_Return in Ho. by rewrite Ho.
Qed.

Lemma write_content_file (ve : VirtualEntries) (h : list object) (p : string)
    (l : loc) (n : string) (c v : jsval) :
  getEntry cwd ve p = Return l → h !! l = Some (File n c) →
  write_content cwd ve h (JStr p) v = Return (<[l := File n v]> h).
Proof.
  intros Hl Ho. unfold write_content. simpl. rewrite Hl. simpl.
  apply deref_Return in Ho. by rewrite Ho.
Qed.

(** C6.  Writing a string to a path that resolves to a File and reading
    the path back gives that string, in the returning forms and in the
    callback forms alike; the encoding arguments play no part. *)
Theorem writeFile_then_readFile_roundtrip
    (ve : VirtualEntries) (h : list object) (p X : string)
    (l : loc) (n : string) (c : jsval) (enc enc' : jsval) :
  getEntry cwd ve p = Return l →
  h !! l = Some (File n c) →
  (let w := call cwd "writeFileSync" [JStr p; JStr X; enc] ve h in
   completion w = Return JUndefined
   ∧ call cwd "readFileSync" [JStr p; enc'] ve (after w)
     = mkOutcome (Return (JStr X)) [] (after w))
  ∧ (∀ f g,
       let w := call cwd "writeFile" [JStr p; JStr X; enc; JFunction f] ve h in
       completion w = Return JUndefined
       ∧ calls w = [(f, [JUndefined])]
       ∧ call cwd "readFile" [JStr p; enc'; JFunction g] ve (after w)
         = mkOutcome (Return JUndefined) [(g, [JStr X])] (after w)).
Proof.
  intros Hl Ho.
  assert (<[l := File n (JStr X)]> h !! l = Some (File n (JStr X))) as Ho'.
  { apply list_lookup_insert_eq. by eapply lookup_lt_Some. }
  split; [|intros f g]; simpl; repeat fs_method.
  - unfold writeFileSync, readFileSync, arg. simpl.
    rewrite (write_content_file _ _ _ _ _ _ _ Hl Ho). simpl.
    split; [done|]. by rewrite (read_content_file _ _ _ _ _ _ Hl Ho').
  - unfold writeFile, readFile, arg. simpl.
    rewrite (write_content_file _ _ _ _ _ _ _ Hl Ho). simpl.
    repeat split. by rewrite (read_content_file _ _ _ _ _ _ Hl Ho').
Qed.

(** C1, as the code has it.  On a path absent from the index, readFile,
    writeFile (both forms) and the readdir operation fail with Not-Found
    before any callback runs; the two stat forms do not fail: they hand out
    a stats object, and it is the [isDirectory] method of that object that
    fails with Not-Found when it is called. *)
Theorem absent_path_operations
    (ve : VirtualEntries) (h : list object) (p : string) (more : list jsval) :
  hasEntry cwd ve p = false →
  fails_not_found (call cwd "readFileSync" (JStr p :: more) ve h) h
  ∧ fails_not_found (call cwd "readFile" (JStr p :: more) ve h) h
  ∧ fails_not_found (call cwd "writeFileSync" (JStr p :: more) ve h) h
  ∧ fails_not_found (call cwd "writeFile" (JStr p :: more) ve h) h
  ∧ fails_not_found (call cwd "readdirSync" (JStr p :: more) ve h) h
  ∧ call cwd "statSync" (JStr p :: more) ve h
    = mkOutcome (Return (JStats (JStr p))) [] h
  ∧ (∀ f more',
       call cwd "stat" (JStr p :: JFunction f :: more') ve h
       = mkOutcome (Return JUndefined) [(f, [JStats (JStr p)])] h)
  ∧ stats_isDirectory cwd ve h (JStats (JStr p))
    = Throw (AssertionError ("ENOENT " +:+ replace_SEP p +:+ " no such file or directory.")).
Proof.
  intros Habsent. pose proof (getEntry_absent cwd ve p Habsent) as Hget.
  repeat split; try intros f more'; repeat fs_method;
    unfold readFileSync, readFile, writeFileSync, writeFile, readdirSync,
      statSync, stat, read_content, write_content, readdir_names,
      stats_isDirectory, fails_not_found, arg;
    simpl; rewrite ?Hget; simpl; eauto.
Qed.

(** C8.  [realpath] returns the resolution of the name against the root,
    for every name and every tree: it never fails, touches nothing, gives
    the same answer in every tree with that root whatever the tree holds
    ([add] keeps the root, and writing changes only file content), and maps
    its own result to itself. *)
Theorem realpath_pure_idempotent
    (name : string) (ve : VirtualEntries) (h : list object) :
  is_absolute cwd = true →
  call cwd "realpathSync" [JStr name] ve h
  = mkOutcome (Return (JStr (getRealpath cwd ve name))) [] h
  ∧ (∀ f, call cwd "realpath" [JStr name; JFunction f] ve h
          = mkOutcome (Return JUndefined) [(f, [JStr (getRealpath cwd ve name)])] h)
  ∧ (∀ ve' h', _root ve' = _root ve →
       completion (call cwd "realpathSync" [JStr name] ve' h')
       = completion (call cwd "realpathSync" [JStr name] ve h))
  ∧ (∀ fuel entries w w',
       tree w = ve → add cwd fuel entries w = Return w' →
       _root (tree w') = _root ve)
  ∧ getRealpath cwd ve (getRealpath cwd ve name) = getRealpath cwd ve name.
Proof.
  intros Hcwd. split_and!.
  - by fs_method.
  - intros f. by fs_method.
  - intros ve' h' Hroot. repeat fs_method.
    unfold realpathSync, realpath_of, getRealpath. simpl. by rewrite Hroot.
  - intros fuel entries w w' <- Hadd.
    apply add_Return in Hadd as (r & n & old & _ & _ & _ & Hroot & _). done.
  - unfold getRealpath. by apply path_resolve_idempotent.
Qed.

(** What C3 says of the two forms holds for stat, realpath, readFile and
    writeFile, and for the two functions written for readdir: the callback
    form passes to its callback, once, what the other form returns, and
    fails as the other form fails, without running the callback. *)
Lemma callback_forms_pass_the_result
    (path content enc : jsval) (f : nat) (ve : VirtualEntries) (h : list object) :
  stat [path; JFunction f] ve h
  = passing (completion (statSync [path] ve h)) (JFunction f) h
  ∧ realpath cwd [path; JFunction f] ve h
    = passing (completion (realpathSync cwd [path] ve h)) (JFunction f) h
  ∧ readFile cwd [path; enc; JFunction f] ve h
    = passing (completion (readFileSync cwd [path; enc] ve h)) (JFunction f) h
  ∧ readdirSync cwd [path; JFunction f] ve h
    = passing (completion (readdirSync_returning cwd [path] ve h)) (JFunction f) h
  ∧ writeFile cwd [path; content; enc; JFunction f] ve h
    = passing (completion (writeFileSync cwd [path; content; enc] ve h))
        (JFunction f) (after (writeFileSync cwd [path; content; enc] ve h)).
Proof.
  split_and!; try reflexivity.
  unfold writeFile, writeFileSync, arg. simpl.
  by destruct (write_content cwd ve h path content).
Qed.

Lemma names_of_array (h : list object) (front : list child) (ls : list loc)
    (back : list child) :
  ∃ msg, names_of h (front ++ CArray ls :: back) = Throw (TypeError msg).
Proof.
  induction front as [|[l|ls'] front [msg IH]]; simpl; eauto.
  destruct (deref h l) as [o| [m|m] |] eqn:E; simpl; eauto.
  - rewrite IH. simpl. eauto.
  - unfold deref in E. destruct (h !! l); done.
  - unfold deref in E. destruct (h !! l); done.
Qed.

(** C2 on the code.  After any [add] that returns, listing the root does
    not produce the child names: the root Directory now holds the array
    that was handed to [addChild], and mapping [getName] over it throws. *)
Theorem readdir_root_throws_after_add
    (fuel : nat) (entries : entries_arg) (w w' : world) (cb : jsval) :
  add cwd fuel entries w = Return w' →
  path_resolve cwd [_root (tree w); replace_SEP (_root (tree w))] = _root (tree w) →
  ∃ msg,
    call cwd "readdirSync" [JStr (_root (tree w')); cb] (tree w') (heap w')
    = mkOutcome (Throw (TypeError msg)) [] (heap w').
Proof.
  intros Hadd Hself.
  apply add_Return in Hadd as (r & n & old & Hr & Ho & Hh & Hroot & Hkeep).
  assert (getEntry cwd (tree w') (_root (tree w')) = Return r) as Hget.
  { apply getEntry_Return. rewrite Hroot, Hself. by apply Hkeep. }
  assert (heap w' !! r = Some (Directory n (old ++ [CArray (as_array entries)]))) as Ho'.
  { rewrite Hh. apply list_lookup_insert_eq. by eapply lookup_lt_Some. }
  destruct (names_of_array (heap w') old (as_array entries) []) as [msg Hnames].
  exists msg. fs_method.
  unfold readdirSync, readdir_names. simpl. rewrite Hget. simpl.
  apply deref_Return in Ho'. rewrite Ho'. simpl. by rewrite Hnames.
Qed.

End Operations.

(** *** The operations on the example tree *)

Lemma example_nope_absent : hasEntry CWD (tree example_world) "nope" = false.
Proof. vm_compute. reflexivity. Qed.

Lemma absent_path_operations_witness :
  fails_not_found
    (call CWD "readFile" [JStr "nope"; JStr "utf8"; JFunction 0]
       (tree example_world) (heap example_world))
    (heap example_world)
  ∧ stats_isDirectory CWD (tree example_world) (heap example_world)
      (JStats (JStr "nope"))
    = Throw (AssertionError "ENOENT nope no such file or directory.").
Proof.
  pose proof (absent_path_operations CWD (tree example_world)
                (heap example_world) "nope" [JStr "utf8"; JFunction 0]
                example_nope_absent) as H.
  split; apply H.
Defined.

(** C1 as stated fails for stat: on an absent path neither form of stat
    fails with Not-Found; the synchronous form returns and the callback
    form runs its callback. *)
Lemma stat_on_absent_path_does_not_fail :
  hasEntry CWD (tree example_world) "nope" = false
  ∧ ¬ fails_not_found
        (call CWD "statSync" [JStr "nope"]
           (tree example_world) (heap example_world))
        (heap example_world)
  ∧ ¬ fails_not_found
        (call CWD "stat" [JStr "nope"; JFunction 0]
           (tree example_world) (heap example_world))
        (heap example_world).
Proof.
  split; [apply example_nope_absent|].
  split; intros [[name H] _]; vm_compute in H; discriminate H.
Qed.

Lemma writeFile_then_readFile_witness :
  call CWD "readFileSync" [JStr "root/a.txt"; JStr "utf8"]
    (tree example_world)
    (after (call CWD "writeFileSync" [JStr "root/a.txt"; JStr "X"; JStr "utf8"]
              (tree example_world) (heap example_world)))
  = mkOutcome (Return (JStr "X")) []
      (after (call CWD "writeFileSync" [JStr "root/a.txt"; JStr "X"; JStr "utf8"]
                (tree example_world) (heap example_world))).
Proof.
  refine (proj2 (proj1 (writeFile_then_readFile_roundtrip CWD
            (tree example_world) (heap example_world) "root/a.txt" "X"
            0 "a.txt" (JStr "hello") (JStr "utf8") (JStr "utf8") _ _)));
    vm_compute; reflexivity.
Defined.

Lemma realpath_witness :
  call CWD "realpathSync" [JStr "no/such/../entry"]
    (tree example_world) (heap example_world)
  = mkOutcome (Return (JStr "/home/u/no/entry")) [] (heap example_world).
Proof.
  exact (proj1 (realpath_pure_idempotent CWD "no/such/../entry"
                  (tree example_world) (heap example_world) eq_refl)).
Defined.

Lemma readdir_root_witness :
  ∃ msg,
    call CWD "readdirSync" [JStr "/home/u"; JFunction 0]
      (tree example_world) (heap example_world)
    = mkOutcome (Throw (TypeError msg)) [] (heap example_world).
Proof.
  refine (readdir_root_throws_after_add CWD 3 (Single 2)
            (mkWorld (example_entries ++ [Directory "/home/u" []])
               (mkVirtualEntries {[ "/home/u" := 3 ]} ∅ "/home/u"))
            example_world (JFunction 0) _ _);
    vm_compute; reflexivity.
Defined.

(** The root lists its children as long as nothing was added. *)
Example readdir_root_before_add :
  call CWD "readdirSync" [JStr "/home/u"; JFunction 0]
    (mkVirtualEntries {[ "/home/u" := 0 ]} ∅ "/home/u")
    [Directory "/home/u" []]
  = mkOutcome (Return JUndefined) [(0, [JArr []])] [Directory "/home/u" []].
Proof. vm_compute. reflexivity. Qed.

(** The example scenario of the specification, below the root. *)
Example example_scenario :
  let ve := tree example_world in
  let h := heap example_world in
  call CWD "readdirSync" [JStr "root"; JFunction 0] ve h
  = mkOutcome (Return JUndefined) [(0, [JArr [JStr "a.txt"; JStr "sub"]])] h
  ∧ call CWD "readFileSync" [JStr "root/a.txt"] ve h
    = mkOutcome (Return (JStr "hello")) [] h
  ∧ stats_isDirectory CWD ve h (JStats (JStr "root/sub")) = Return true
  ∧ stats_isDirectory CWD ve h (JStats (JStr "root/a.txt")) = Return false
  ∧ call CWD "readFileSync" [JStr "root/sub"] ve h
    = mkOutcome (Throw (AssertionError "ENOENT root/sub no such file.")) [] h.
Proof. repeat split; vm_compute; reflexivity. Qed.

(** C3 on the code.  The object has no property [readdir]; the property
    [readdirSync] holds the callback form, which replaced the returning
    form assigned just before it.  So listing a directory without a
    callback throws instead of returning the names. *)
Theorem readdir_returning_form_overwritten :
  (∀ cwd, Filesystem cwd !! "readdir" = None
          ∧ Filesystem cwd !! "readdirSync" = Some (readdirSync cwd))
  ∧ call CWD "readdirSync" [JStr "root"]
      (tree example_world) (heap example_world)
    = mkOutcome (Throw (TypeError "cb is not a function")) [] (heap example_world)
  ∧ readdirSync_returning CWD [JStr "root"]
      (tree example_world) (heap example_world)
    = mkOutcome (Return (JArr [JStr "a.txt"; JStr "sub"])) [] (heap example_world)
  ∧ call CWD "readdir" [JStr "root"; JFunction 0]
      (tree example_world) (heap example_world)
    = mkOutcome (Throw (TypeError "readdir is not a function")) [] (heap example_world).
Proof.
  split; [intros cwd; split; apply Filesystem_methods|].
  repeat split; vm_compute; reflexivity.
Qed.

(** C5 on the code.  [realpath] resolves the name as it is given: a
    backslash stays in the result, so the two spellings of one name resolve
    to different paths, although [getEntry] and [hasEntry] treat them as
    the same name. *)
Theorem realpath_keeps_backslash :
  call CWD "realpathSync" [JStr "root\a.txt"]
    (tree example_world) (heap example_world)
  = mkOutcome (Return (JStr "/home/u/root\a.txt")) [] (heap example_world)
  ∧ call CWD "realpathSync" [JStr "root/a.txt"]
      (tree example_world) (heap example_world)
    = mkOutcome (Return (JStr "/home/u/root/a.txt")) [] (heap example_world)
  ∧ getRealpath CWD (tree example_world) "root\a.txt"
    ≠ getRealpath CWD (tree example_world) "root/a.txt"
  ∧ getEntry CWD (tree example_world) "root\a.txt" = Return 0
  ∧ getEntry CWD (tree example_world) "root/a.txt" = Return 0
  ∧ hasEntry CWD (tree example_world) "root\a.txt" = true.
Proof. repeat split; vm_compute; (reflexivity || discriminate). Qed.

(** ** First insertion wins, in the main index *)


(** *** [_add] returns on a tree of entries *)











(** The same through the public interface: two [add]s of files named
    alike. *)
Example add_same_name_twice :
  ∃ w1 w2,
    new_VirtualEntries CWD 1 (Some (Single 0)) two_files = Return w1
    ∧ add CWD 1 (Single 1) w1 = Return w2
    ∧ _entries (tree w1) !! "/home/u/a" = Some 0
    ∧ _files (tree w1) !! "/home/u/a" = Some 0
    ∧ _entries (tree w2) !! "/home/u/a" = Some 0
    ∧ _files (tree w2) !! "/home/u/a" = Some 1.
Proof.
  eexists _, _. split; [vm_compute; reflexivity|].
  split; [vm_compute; reflexivity|].
  repeat split; vm_compute; reflexivity.
Qed.

(** *** [_add] returns on heaps built bottom-up *)

Lemma _add_children_total (cwd : string)
    (recur : string → loc → VirtualEntries → result VirtualEntries)
    (h : list object) (name : string) (content : list child) :
  (∀ c, CEntry c ∈ content → ∀ n ve, recur n c ve ≠ Diverge) →
  ∀ ve, _add_children cwd recur h name content ve ≠ Diverge.
Proof.
  induction content as [|[c|ls] rest IH]; simpl; intros Hrecur ve; [done| |done].
  unfold deref. destruct (h !! c) as [co|]; simpl; [|done].
  destruct (recur _ c ve) as [ve1| |] eqn:E; simpl; [|done|].
  - apply IH. intros c' Hc'. apply Hrecur. by right.
  - exfalso. eapply Hrecur; [by left | exact E].
Qed.

Lemma _add_total (cwd : string) (h : list object) :
  ordered h →
  ∀ fuel name entry ve, entry < fuel → _add cwd fuel h name entry ve ≠ Diverge.
Proof.
  intros Hord. induction fuel as [|fuel IH]; intros name entry ve Hlt; [lia|].
  rewrite _add_unfold. unfold deref.
  destruct (h !! entry) as [[n content|n c]|] eqn:Ho; simpl; [|done..].
  apply _add_children_total. intros c Hc n' ve'. apply IH.
  specialize (Hord entry n content c Ho Hc). lia.
Qed.

Lemma add_loop_total (cwd : string) (h : list object) (fuel : nat)
    (entries : list loc) :
  ordered h → (∀ e, e ∈ entries → e < fuel) →
  ∀ ve, add_loop cwd fuel h entries ve ≠ Diverge.
Proof.
  intros Hord. induction entries as [|e rest IH]; simpl; intros Hlt ve; [done|].
  unfold deref. destruct (h !! e) as [o|]; simpl; [|done].
  destruct (_add cwd fuel h _ e ve) as [ve1| |] eqn:E; simpl; [|done|].
  - apply IH. intros e' He'. apply Hlt. by right.
  - exfalso. eapply (_add_total cwd h Hord); [|exact E]. apply Hlt. by left.
Qed.

Lemma ordered_addChild (h : list object) (r : loc) (n : string)
    (old : list child) (ls : list loc) :
  ordered h → h !! r = Some (Directory n old) →
  ordered (<[r := Directory n (old ++ [CArray ls])]> h).
Proof.
  intros Hord Hr l n' content c Hl Hc.
  destruct (decide (l = r)) as [->|Hne].
  - rewrite list_lookup_insert_eq in Hl by by eapply lookup_lt_Some.
    injection Hl as <- <-.
    apply elem_of_app in Hc as [Hc|Hc]; [by eapply Hord|].
    by apply list_elem_of_singleton in Hc.
  - rewrite list_lookup_insert_ne in Hl by done. by eapply Hord.
Qed.

(** On a heap built bottom-up, [add] with fuel above every location it is
    given returns or throws: it does not run out of fuel. *)
Lemma add_total (cwd : string) (fuel : nat) (entries : entries_arg) (w : world) :
  ordered (heap w) → (∀ e, e ∈ as_array entries → e < fuel) →
  add cwd fuel entries w ≠ Diverge.
Proof.
  intros Hord Hlt. unfold add.
  destruct (_entries (tree w) !! _root (tree w)) as [r|]; [|done].
  unfold deref. destruct (heap w !! r) as [[n old|n c]|] eqn:Hr; simpl; [|done..].
  destruct (add_loop cwd fuel _ (as_array entries) (tree w)) as [ve'| |] eqn:E;
    simpl; [done..|].
  exfalso. eapply add_loop_total; [| exact Hlt | exact E].
  by apply ordered_addChild.
Qed.

Example example_world_ordered : ordered (heap example_world).
Proof.
  intros l n content c Hl Hc.
  destruct l as [|[|[|[|l]]]]; simpl in Hl; simplify_eq;
    repeat (apply elem_of_cons in Hc as [Hc|Hc]; [simplify_eq; lia|]);
    by apply elem_of_nil in Hc.
Qed.

(** ** Every entry that [add] walks over is indexed *)

Section Walk.

Variable cwd : string.
Variable h : list object.

Lemma indexed_none (seen : string → loc → Prop) (ve : VirtualEntries) :
  (∀ k e, ¬ seen k e) → indexed seen ve ve.
Proof.
  intros Hnone. split; [apply extends_refl|]. split; [|by left].
  intros k e Hs. by apply Hnone in Hs.
Qed.

Lemma indexed_seq (seen1 seen2 seen : string → loc → Prop)
    (a b c : VirtualEntries) :
  indexed seen1 a b → indexed seen2 b c →
  (∀ k e, seen k e ↔ seen1 k e ∨ seen2 k e) →
  indexed seen a c.
Proof.
  intros (He1 & Hin1 & Hfrom1) (He2 & Hin2 & Hfrom2) Hseen.
  split; [by eapply extends_trans|]. split.
  - intros k e [Hs|Hs]%Hseen.
    + destruct (Hin1 k e Hs) as [x Hx]. exists x. by apply He2.
    + by eapply Hin2.
  - intros k e' Hk. destruct (Hfrom2 k e' Hk) as [Hb|Hs].
    + destruct (Hfrom1 k e' Hb) as [Ha|Hs]; [by left|].
      right. apply Hseen. by left.
    + right. apply Hseen. by right.
Qed.

Lemma indexed_first (name : string) (entry : loc) (ve : VirtualEntries) :
  indexed (λ k e, k = name ∧ e = entry) ve (index_if_absent name entry ve).
Proof.
  split; [apply index_if_absent_extends|]. split.
  - intros k e [-> ->]. rewrite index_if_absent_lookup.
    by destruct (_entries ve !! name).
  - intros k e'. unfold index_if_absent.
    destruct (js_in name (_entries ve)); [by left|]. simpl.
    rewrite lookup_insert. case_decide; [|by left].
    intros [= <-]. by right.
Qed.

Lemma _add_children_indexed
    (recur : string → loc → VirtualEntries → result VirtualEntries)
    (name : string) (content : list child) :
  (∀ n l ve ve', recur n l ve = Return ve' →
                 indexed (visits cwd h (_root ve) n l) ve ve') →
  ∀ ve ve', _add_children cwd recur h name content ve = Return ve' →
            indexed (visits_children cwd h (_root ve) name content) ve ve'.
Proof.
  intros Hrecur. induction content as [|[c|ls] rest IH]; simpl; intros ve ve' H.
  - injection H as <-. apply indexed_none.
    intros k e (c & co & Hc & _). by apply elem_of_nil in Hc.
  - apply bind_Return in H as (co & Hco & H). apply deref_Return in Hco.
    apply bind_Return in H as (ve1 & H1 & H).
    apply Hrecur in H1. apply IH in H.
    assert (_root ve1 = _root ve) as Hroot by apply H1.
    rewrite Hroot in H.
    eapply indexed_seq; [exact H1 | exact H|].
    intros k e. split.
    + intros (c' & co' & Hc' & Hco' & Hv).
      apply elem_of_cons in Hc' as [[= ->]|Hc'].
      * left. by simplify_eq.
      * right. by exists c', co'.
    + intros [Hv|(c' & co' & Hc' & Hco' & Hv)].
      * exists c, co. split; [by left | done].
      * exists c', co'. split; [by right | done].
  - done.
Qed.

Lemma _add_indexed (fuel : nat) :
  ∀ name entry ve ve',
    _add cwd fuel h name entry ve = Return ve' →
    indexed (visits cwd h (_root ve) name entry) ve ve'.
Proof.
  induction fuel as [|fuel IH]; intros name entry ve ve' H; [done|].
  rewrite _add_unfold in H. apply bind_Return in H as (o & Ho & H).
  apply deref_Return in Ho.
  pose proof (indexed_first name entry ve) as Hfirst.
  destruct o as [n content|n c].
  - apply (_add_children_indexed _ _ _ (IH)) in H.
    assert (_root (index_if_absent name entry ve) = _root ve) as Hroot
      by apply Hfirst.
    rewrite Hroot in H.
    eapply indexed_seq; [exact Hfirst | exact H|].
    intros k e. split.
    + inversion 1 as [|? ? n' content' c co ? ? Ho' Hc Hco Hv]; subst.
      * by left.
      * right. simplify_eq. by exists c, co.
    + intros [[-> ->]|(c & co & Hc & Hco & Hv)].
      * constructor.
      * by eapply visits_child.
  - injection H as <-.
    destruct Hfirst as ([Hr Hkeep] & Hin & Hfrom).
    split; [by split|]. split; simpl.
    + intros k e Hv. inversion Hv; subst; [|congruence].
      by eapply (Hin k e).
    + intros k e' Hk. destruct (Hfrom k e' Hk) as [?|[-> ->]]; [by left|].
      right. constructor.
Qed.

End Walk.

Lemma add_loop_indexed (cwd : string) (h : list object) (fuel : nat)
    (entries : list loc) :
  ∀ ve ve', add_loop cwd fuel h entries ve = Return ve' →
            indexed (visits_added cwd h (_root ve) entries) ve ve'.
Proof.
  induction entries as [|x rest IH]; simpl; intros ve ve' H.
  - injection H as <-. apply indexed_none.
    intros k e (x & o & Hx & _). by apply elem_of_nil in Hx.
  - apply bind_Return in H as (o & Ho & H). apply deref_Return in Ho.
    apply bind_Return in H as (ve1 & H1 & H).
    apply _add_indexed in H1. apply IH in H.
    assert (_root ve1 = _root ve) as Hroot by apply H1.
    rewrite Hroot in H.
    eapply indexed_seq; [exact H1 | exact H|].
    intros k e. split.
    + intros (x' & o' & Hx' & Ho' & Hv).
      apply elem_of_cons in Hx' as [->|Hx'].
      * left. by simplify_eq.
      * right. by exists x', o'.
    + intros [Hv|(x' & o' & Hx' & Ho' & Hv)].
      * exists x, o. split; [by left | done].
      * exists x', o'. split; [by right | done].
Qed.

Lemma add_indexed (cwd : string) (fuel : nat) (entries : entries_arg)
    (w w' : world) :
  add cwd fuel entries w = Return w' →
  indexed (visits_added cwd (heap w') (_root (tree w)) (as_array entries))
    (tree w) (tree w').
Proof.
  unfold add. intros H.
  destruct (_entries (tree w) !! _root (tree w)) as [r|]; [|done].
  apply bind_Return in H as (o & _ & H).
  apply bind_Return in H as (o' & _ & H).
  apply bind_Return in H as (ve' & Hve' & H). injection H as <-.
  by apply add_loop_indexed in Hve'.
Qed.

Lemma replace_SEP_id (s : string) :
  has_char BACKSLASH s = false → replace_SEP s = s.
Proof.
  induction s as [|c s IH]; simpl; [done|].
  intros [Hc Hs]%orb_false_elim. apply bool_decide_eq_false in Hc.
  rewrite decide_False by done. by rewrite IH.
Qed.

(** Every path that a walk indexes is a result of [path.resolve]. *)
Lemma visits_resolved (cwd : string) (h : list object) (root name : string)
    (entry : loc) (k : string) (e : loc) :
  is_absolute cwd = true →
  visits cwd h root name entry k e →
  (∃ segs, Forall plain_segment segs ∧ name = absolute_of segs) →
  ∃ segs, Forall plain_segment segs ∧ k = absolute_of segs.
Proof.
  intros Hcwd. induction 1 as [|? ? ? ? ? ? ? ? _ _ _ _ IH]; [done|].
  intros _. apply IH. by apply path_resolve_shape.
Qed.

(** The part of C9 that holds on the code.  After an [add] that returns,
    every path the walk indexed that contains no backslash exists, and
    looking it up gives an entry that was mapped there before the call or
    that this call inserted there. *)
Lemma added_entries_found (cwd : string) (fuel : nat) (entries : entries_arg)
    (w w' : world) (k : string) (e : loc) :
  is_absolute cwd = true →
  add cwd fuel entries w = Return w' →
  visits_added cwd (heap w') (_root (tree w)) (as_array entries) k e →
  has_char BACKSLASH k = false →
  hasEntry cwd (tree w') k = true
  ∧ ∃ e', getEntry cwd (tree w') k = Return e'
          ∧ (_entries (tree w) !! k = Some e'
             ∨ visits_added cwd (heap w') (_root (tree w)) (as_array entries) k e').
Proof.
  intros Hcwd Hadd Hv Hk.
  apply add_indexed in Hadd as (_ & Hin & Hfrom).
  assert (path_resolve cwd [_root (tree w'); replace_SEP k] = k) as Hres.
  { rewrite replace_SEP_id by done.
    destruct Hv as (x & o & _ & _ & Hv).
    apply visits_resolved in Hv as (segs & Hsegs & ->);
      [|done | by apply path_resolve_shape].
    by apply path_resolve_absolute_of. }
  destruct (Hin k e Hv) as [e' He'].
  split.
  - unfold hasEntry. rewrite Hres. apply js_in_true. eauto.
  - exists e'. split; [|by apply Hfrom].
    apply getEntry_Return. by rewrite Hres.
Qed.

(** C9 on the code.  [add] indexes the file under its name as given, and
    the lookups replace the backslash before they resolve: the file that
    was added is not found, neither under the path it is indexed at nor
    under its name. *)
Theorem added_backslash_entry_not_found :
  ∃ w,
    new_VirtualEntries CWD 1 (Some (Single 0)) backslash_entries = Return w
    ∧ _entries (tree w) !! "/home/u/a\b" = Some 0
    ∧ hasEntry CWD (tree w) "/home/u/a\b" = false
    ∧ hasEntry CWD (tree w) "a\b" = false
    ∧ getEntry CWD (tree w) "/home/u/a\b"
      = Throw (AssertionError "ENOENT /home/u/a/b no such file or directory.")
    ∧ getEntry CWD (tree w) "a\b"
      = Throw (AssertionError "ENOENT a/b no such file or directory.").
Proof.
  eexists. split; [vm_compute; reflexivity|].
  repeat split; vm_compute; reflexivity.
Qed.

(** On the example tree every indexed entry is found. *)
Example example_entries_found :
  hasEntry CWD (tree example_world) "/home/u/root/a.txt" = true
  ∧ getEntry CWD (tree example_world) "/home/u/root/a.txt" = Return 0
  ∧ getEntry CWD (tree example_world) "root/sub" = Return 1
  ∧ getEntry CWD (tree example_world) "root" = Return 2
  ∧ getEntry CWD (tree example_world) "." = Return 3.
Proof. repeat split; vm_compute; reflexivity. Qed.

(** * Further properties of the code *)

(** ** [hasEntry] and [getEntry] *)

(** [getEntry] returns exactly where [hasEntry] answers true, and what it
    returns is what the main index maps the resolved, separator-normalised
    name to; where [hasEntry] answers false it throws the ENOENT
    assertion. *)
Theorem getEntry_returns_iff_hasEntry
    (cwd : string) (ve : VirtualEntries) (name : string) :
  (hasEntry cwd ve name = true
   ↔ ∃ l, getEntry cwd ve name = Return l)
  ∧ (∀ l, getEntry cwd ve name = Return l
          ↔ getEntries ve !! path_resolve cwd [_root ve; replace_SEP name] = Some l)
  ∧ (hasEntry cwd ve name = false
     ↔ getEntry cwd ve name
       = Throw (AssertionError
                  ("ENOENT " +:+ replace_SEP name +:+ " no such file or directory."))).
Proof.
  split_and!.
  - unfold hasEntry. rewrite js_in_true. split.
    + intros [l Hl]. exists l. by apply getEntry_Return.
    + intros [l Hl]. exists l. by apply getEntry_Return.
  - intros l. apply getEntry_Return.
  - split; [apply getEntry_absent|].
    intros H. destruct (hasEntry cwd ve name) eqn:E; [|done].
    unfold hasEntry in E. unfold getEntry in H. rewrite E in H. simpl in H.
    by destruct (_entries ve !! _).
Qed.

(** The lookups do not tell a backslash from a slash: two names that differ
    only in the kind of their separators are looked up alike. *)
Theorem lookups_ignore_separator_kind
    (cwd : string) (ve : VirtualEntries) (p q : string) :
  replace_SEP p = replace_SEP q →
  hasEntry cwd ve p = hasEntry cwd ve q
  ∧ getEntry cwd ve p = getEntry cwd ve q.
Proof. intros H. unfold hasEntry, getEntry. by rewrite H. Qed.

Lemma lookups_ignore_separator_kind_witness :
  hasEntry CWD (tree example_world) "root\sub" = hasEntry CWD (tree example_world) "root/sub"
  ∧ getEntry CWD (tree example_world) "root\sub" = getEntry CWD (tree example_world) "root/sub".
Proof.
  exact (lookups_ignore_separator_kind CWD (tree example_world)
           "root\sub" "root/sub" eq_refl).
Defined.

(** ** Invariants of the tree *)

Lemma grows_refl (h : list object) : grows h h.
Proof. intros l o Hl. eauto. Qed.

Lemma grows_insert (h : list object) (l : loc) (o o' : object) :
  h !! l = Some o → isFile o' = isFile o → getName o' = getName o →
  grows h (<[l := o']> h).
Proof.
  intros Hl Hk Hn x ox Hx. destruct (decide (x = l)) as [->|Hne].
  - exists o'. rewrite list_lookup_insert_eq by by eapply lookup_lt_Some.
    by simplify_eq.
  - exists ox. by rewrite list_lookup_insert_ne.
Qed.

Lemma grows_alloc (h : list object) (o : object) : grows h (h ++ [o]).
Proof.
  intros l ol Hl. exists ol. split; [|done]. by apply lookup_app_l_Some.
Qed.

Lemma grows_File (h h' : list object) (l : loc) (n : string) (c : jsval) :
  grows h h' → h !! l = Some (File n c) → ∃ c', h' !! l = Some (File n c').
Proof.
  intros Hg Hl. destruct (Hg l _ Hl) as (o' & Ho' & Hk & Hn).
  destruct o' as [|n' c']; [done|]. simpl in Hn. subst. eauto.
Qed.

Lemma grows_Directory (h h' : list object) (l : loc) (n : string)
    (es : list child) :
  grows h h' → h !! l = Some (Directory n es) →
  ∃ es', h' !! l = Some (Directory n es').
Proof.
  intros Hg Hl. destruct (Hg l _ Hl) as (o' & Ho' & Hk & Hn).
  destruct o' as [n' es'|]; [|done]. simpl in Hn. subst. eauto.
Qed.

Lemma index_allocated_grows (h h' : list object) (ve : VirtualEntries) :
  grows h h' → index_allocated h ve → index_allocated h' ve.
Proof.
  intros Hg Ha k l Hk. destruct (Ha k l Hk) as [o Ho].
  destruct (Hg l o Ho) as (o' & Ho' & _). eauto.
Qed.

Lemma files_index_sound_grows (h h' : list object) (ve : VirtualEntries) :
  grows h h' → files_index_sound h ve → files_index_sound h' ve.
Proof.
  intros Hg Hs k l Hk. destruct (Hs k l Hk) as [(n & c & Hl) Hin].
  split; [|done]. destruct (grows_File _ _ _ _ _ Hg Hl) as [c' Hc']. eauto.
Qed.

Section Invariant.

Variable cwd : string.
Variable h : list object.
Variable P : VirtualEntries → Prop.

Hypothesis P_index : ∀ name entry o ve,
  h !! entry = Some o → P ve → P (index_if_absent name entry ve).

Hypothesis P_file : ∀ name entry n c ve,
  h !! entry = Some (File n c) → is_Some (_entries ve !! name) → P ve →
  P (mkVirtualEntries (_entries ve) (<[name := entry]> (_files ve)) (_root ve)).

Lemma _add_children_invariant
    (recur : string → loc → VirtualEntries → result VirtualEntries)
    (name : string) (content : list child) :
  (∀ n l ve ve', recur n l ve = Return ve' → P ve → P ve') →
  ∀ ve ve', _add_children cwd recur h name content ve = Return ve' →
            P ve → P ve'.
Proof.
  intros Hrecur. induction content as [|[c|ls] rest IH]; simpl; intros ve ve' H HP.
  - by injection H as <-.
  - apply bind_Return in H as (co & _ & H).
    apply bind_Return in H as (ve1 & H1 & H).
    eapply IH; [exact H|]. by eapply Hrecur.
  - done.
Qed.

Lemma _add_invariant (fuel : nat) :
  ∀ name entry ve ve',
    _add cwd fuel h name entry ve = Return ve' → P ve → P ve'.
Proof.
  induction fuel as [|fuel IH]; intros name entry ve ve' H HP; [done|].
  rewrite _add_unfold in H. apply bind_Return in H as (o & Ho & H).
  apply deref_Return in Ho.
  pose proof (P_index name entry o ve Ho HP) as HP1.
  destruct o as [n content|n c].
  - by eapply _add_children_invariant.
  - injection H as <-. eapply P_file; [exact Ho| |exact HP1].
    rewrite index_if_absent_lookup. by destruct (_entries ve !! name).
Qed.

Lemma add_loop_invariant (fuel : nat) (entries : list loc) :
  ∀ ve ve', add_loop cwd fuel h entries ve = Return ve' → P ve → P ve'.
Proof.
  induction entries as [|e rest IH]; simpl; intros ve ve' H HP.
  - by injection H as <-.
  - apply bind_Return in H as (o & _ & H).
    apply bind_Return in H as (ve1 & H1 & H).
    eapply IH; [exact H|]. by eapply _add_invariant.
Qed.

End Invariant.

Lemma add_loop_sound (cwd : string) (h : list object) (fuel : nat)
    (entries : list loc) (ve ve' : VirtualEntries) :
  add_loop cwd fuel h entries ve = Return ve' →
  index_allocated h ve ∧ files_index_sound h ve →
  index_allocated h ve' ∧ files_index_sound h ve'.
Proof.
  apply (add_loop_invariant cwd h
           (λ ve, index_allocated h ve ∧ files_index_sound h ve)).
  - intros name entry o ve0 Ho [Ha Hs].
    destruct (index_if_absent_extends name entry ve0) as [_ Hkeep]. split.
    + intros k l. unfold getEntries, index_if_absent.
      destruct (js_in name (_entries ve0)); [apply Ha|]. simpl.
      rewrite lookup_insert. case_decide; [|apply Ha].
      intros [= <-]. eauto.
    + intros k l Hk.
      assert (getFiles ve0 !! k = Some l) as Hk0.
      { revert Hk. unfold getFiles, index_if_absent.
        by destruct (js_in name (_entries ve0)). }
      destruct (Hs k l Hk0) as [Hf [x Hx]]. split; [done|].
      exists x. by apply Hkeep.
  - intros name entry n c ve0 Ho Hin [Ha Hs]. split; [exact Ha|].
    intros k l. unfold getFiles, getEntries. simpl.
    rewrite lookup_insert. case_decide.
    + intros [= <-]. subst. eauto.
    + apply Hs.
Qed.

Lemma write_content_Return (cwd : string) (ve : VirtualEntries)
    (h h' : list object) (path content : jsval) :
  write_content cwd ve h path content = Return h' →
  ∃ p l n c, path = JStr p ∧ getEntry cwd ve p = Return l
             ∧ h !! l = Some (File n c)
             ∧ h' = <[l := File n content]> h.
Proof.
  unfold write_content. intros H.
  apply bind_Return in H as (p & Hp & H).
  destruct path as [| | | |s| | | |]; try done. injection Hp as ->.
  apply bind_Return in H as (l & Hl & H).
  apply bind_Return in H as (o & Ho & H). apply deref_Return in Ho.
  destruct o as [|n c]; [done|]. simpl in H. injection H as <-.
  by exists p, l, n, c.
Qed.

Lemma reachable_invariants (cwd : string) (w : world) :
  reachable cwd w →
  root_is_directory w
  ∧ index_allocated (heap w) (tree w)
  ∧ files_index_sound (heap w) (tree w).
Proof.
  induction 1 as [fuel h w Hnew
                 |fuel entries w w' _ (Hroot & Ha & Hs) Hadd
                 |w path content h' _ (Hroot & Ha & Hs) Hw
                 |w name rest _ (Hroot & Ha & Hs)
                 |w name children _ (Hroot & Ha & Hs)].
  - unfold new_VirtualEntries, createDir in Hnew. injection Hnew as <-.
    split_and!.
    + exists (List.length h), (replace_SEP cwd), []. simpl. split.
      * apply lookup_singleton_eq.
      * apply list_lookup_middle. done.
    + intros k l. unfold getEntries. simpl.
      intros [_ <-]%lookup_singleton_Some.
      exists (Directory (replace_SEP cwd) []). by apply list_lookup_middle.
    + intros k l. unfold getFiles. simpl. by rewrite lookup_empty.
  - pose proof Hadd as Hadd'.
    apply add_Return in Hadd' as (r & n & old & Hr & Ho & Hh & Hrt & Hkeep).
    assert (grows (heap w) (heap w')) as Hg.
    { rewrite Hh. by eapply grows_insert. }
    assert (index_allocated (heap w') (tree w')
            ∧ files_index_sound (heap w') (tree w')) as [Ha' Hs'].
    { unfold add in Hadd. rewrite Hr in Hadd.
      apply bind_Return in Hadd as (o & Ho0 & Hadd).
      apply bind_Return in Hadd as (o' & Ho' & Hadd).
      apply bind_Return in Hadd as (ve' & Hve' & Hadd). injection Hadd as <-.
      simpl. eapply add_loop_sound; [exact Hve'|].
      apply deref_Return in Ho0. rewrite Ho in Ho0. injection Ho0 as <-.
      injection Ho' as <-. simpl in Hg.
      split; [by eapply index_allocated_grows | by eapply files_index_sound_grows]. }
    split_and!; [|done|done].
    exists r, n, (old ++ [CArray (as_array entries)]). split.
    + unfold getEntries. rewrite Hrt. by apply Hkeep.
    + rewrite Hh. apply list_lookup_insert_eq. by eapply lookup_lt_Some.
  - apply write_content_Return in Hw as (p & l & n & c & -> & Hl & Ho & ->).
    assert (grows (heap w) (<[l := File n content]> (heap w))) as Hg
      by by eapply grows_insert.
    simpl. split_and!.
    + destruct Hroot as (r & nr & es & Hr & Hor).
      destruct (grows_Directory _ _ _ _ _ Hg Hor) as [es' Hes'].
      by exists r, nr, es'.
    + by eapply index_allocated_grows.
    + by eapply files_index_sound_grows.
  - pose proof (grows_alloc (heap w) (File name (_createContent (arg 0 rest)))) as Hg.
    simpl. split_and!.
    + destruct Hroot as (r & nr & es & Hr & Hor).
      destruct (grows_Directory _ _ _ _ _ Hg Hor) as [es' Hes'].
      by exists r, nr, es'.
    + by eapply index_allocated_grows.
    + by eapply files_index_sound_grows.
  - pose proof (grows_alloc (heap w) (Directory name children)) as Hg.
    simpl. split_and!.
    + destruct Hroot as (r & nr & es & Hr & Hor).
      destruct (grows_Directory _ _ _ _ _ Hg Hor) as [es' Hes'].
      by exists r, nr, es'.
    + by eapply index_allocated_grows.
    + by eapply files_index_sound_grows.
Qed.

Lemma example_world_reachable : reachable CWD example_world.
Proof.
  eapply (reachable_add CWD 3 (Single 2)
            (mkWorld (example_entries ++ [Directory "/home/u" []])
               (mkVirtualEntries {[ "/home/u" := 3 ]} ∅ "/home/u"))).
  - by apply (reachable_new CWD 0 example_entries).
  - vm_compute. reflexivity.
Qed.

(** In every tree a program can build, the root path is indexed and what it
    is mapped to is a Directory: no [add], write or allocation removes or
    replaces it. *)
Theorem root_always_a_directory (cwd : string) (w : world) :
  reachable cwd w → root_is_directory w.
Proof. intros H. by apply reachable_invariants in H as (? & _ & _). Qed.

Lemma root_always_a_directory_witness : root_is_directory example_world.
Proof. exact (root_always_a_directory CWD example_world example_world_reachable). Defined.

(** In every tree a program can build, [getFiles()] maps paths to File
    entries only, and each of its paths is a path of [getEntries()] too. *)
Theorem files_index_holds_files_only (cwd : string) (w : world) :
  reachable cwd w → files_index_sound (heap w) (tree w).
Proof. intros H. by apply reachable_invariants in H as (_ & _ & ?). Qed.

Lemma files_index_holds_files_only_witness :
  files_index_sound (heap example_world) (tree example_world).
Proof.
  exact (files_index_holds_files_only CWD example_world example_world_reachable).
Defined.

(** In every tree a program can build, reading a path ends in exactly one
    of three ways, decided by the index and the kind of the entry: the
    Not-Found assertion when the path is not indexed, the no-such-file
    assertion when it is a Directory, the content when it is a File.  The
    heap is left as it was. *)
Theorem readFileSync_outcomes (cwd : string) (w : world) (p : string)
    (more : list jsval) :
  reachable cwd w →
  let out := call cwd "readFileSync" (JStr p :: more) (tree w) (heap w) in
  calls out = [] ∧ after out = heap w
  ∧ ((hasEntry cwd (tree w) p = false
      ∧ completion out
        = Throw (AssertionError
                   ("ENOENT " +:+ replace_SEP p +:+ " no such file or directory.")))
     ∨ (∃ l n es, getEntry cwd (tree w) p = Return l
                  ∧ heap w !! l = Some (Directory n es)
                  ∧ completion out
                    = Throw (AssertionError ("ENOENT " +:+ p +:+ " no such file.")))
     ∨ (∃ l n c, getEntry cwd (tree w) p = Return l
                 ∧ heap w !! l = Some (File n c)
                 ∧ completion out = Return c)).
Proof.
  intros Hreach out. subst out. rewrite call_readFileSync.
  apply reachable_invariants in Hreach as (_ & Ha & _).
  unfold readFileSync, returning, read_content, arg. simpl.
  split; [done|]. split; [done|].
  destruct (hasEntry cwd (tree w) p) eqn:E.
  - apply getEntry_returns_iff_hasEntry in E as [l Hl]. right.
    pose proof Hl as Hk. apply getEntry_Return in Hk.
    destruct (Ha _ _ Hk) as [o Ho]. rewrite Hl. simpl.
    apply deref_Return in Ho as Hd. rewrite Hd. simpl.
    destruct o as [n es|n c]; [left|right]; eauto 10.
  - left. split; [done|]. by rewrite (getEntry_absent _ _ _ E).
Qed.

Lemma readFileSync_outcomes_witness :
  calls (call CWD "readFileSync" [JStr "root"] (tree example_world) (heap example_world)) = [].
Proof.
  exact (proj1 (readFileSync_outcomes CWD example_world "root" []
                  example_world_reachable)).
Defined.

Section Kinds.

Variable cwd : string.
Variable ve : VirtualEntries.
Variable h : list object.

(** The kind checks of the operations.  On a path that resolves to a File,
    listing fails with the not-a-directory assertion; on a path that
    resolves to a Directory, reading and writing fail with the no-such-file
    assertion, in both forms.  In each case no callback runs and the heap
    is left as it was. *)
Theorem wrong_kind_is_refused (p : string) (l : loc) (o : object)
    (more : list jsval) :
  getEntry cwd ve p = Return l →
  h !! l = Some o →
  (isFile o = true →
   call cwd "readdirSync" (JStr p :: more) ve h
   = mkOutcome (Throw (AssertionError (p +:+ " is not a directory"))) [] h)
  ∧ (isDirectory o = true →
     let refused :=
       mkOutcome (Throw (AssertionError ("ENOENT " +:+ p +:+ " no such file."))) [] h in
     call cwd "readFileSync" (JStr p :: more) ve h = refused
     ∧ call cwd "readFile" (JStr p :: more) ve h = refused
     ∧ call cwd "writeFileSync" (JStr p :: more) ve h = refused
     ∧ call cwd "writeFile" (JStr p :: more) ve h = refused).
Proof.
  intros Hl Ho. apply deref_Return in Ho.
  split; intros Hk; destruct o as [n es|n c]; try done.
  - rewrite call_readdirSync.
    unfold readdirSync, readdir_names, arg. simpl. rewrite Hl. simpl.
    by rewrite Ho.
  - simpl. rewrite call_readFileSync, call_readFile, call_writeFileSync,
      call_writeFile.
    unfold readFileSync, readFile, writeFileSync, writeFile, read_content,
      write_content, arg. simpl. rewrite Hl. simpl. by rewrite Ho.
Qed.

(** What [stat] reports.  The object that [statSync] returns, and that
    [stat] passes to its callback, answers [isDirectory()] with true for a
    path that resolves to a Directory and with false for one that resolves
    to a File. *)
Theorem stat_reports_the_kind (p : string) (l : loc) (o : object)
    (f : nat) :
  getEntry cwd ve p = Return l →
  h !! l = Some o →
  ∃ stats,
    call cwd "statSync" [JStr p] ve h = mkOutcome (Return stats) [] h
    ∧ call cwd "stat" [JStr p; JFunction f] ve h
      = mkOutcome (Return JUndefined) [(f, [stats])] h
    ∧ stats_isDirectory cwd ve h stats = Return (isDirectory o)
    ∧ isDirectory o = negb (isFile o).
Proof.
  intros Hl Ho. exists (JStats (JStr p)).
  rewrite call_statSync, call_stat. split_and!; try done.
  - unfold stats_isDirectory. simpl. rewrite Hl. simpl.
    apply deref_Return in Ho. by rewrite Ho.
  - by destruct o.
Qed.

End Kinds.

Lemma wrong_kind_is_refused_witness :
  call CWD "readdirSync" [JStr "root/a.txt"; JFunction 0]
    (tree example_world) (heap example_world)
  = mkOutcome (Throw (AssertionError "root/a.txt is not a directory")) []
      (heap example_world).
Proof.
  exact (proj1 (wrong_kind_is_refused CWD (tree example_world) (heap example_world)
                  "root/a.txt" 0 (File "a.txt" (JStr "hello")) [JFunction 0]
                  eq_refl eq_refl) eq_refl).
Defined.

Lemma stat_reports_the_kind_witness :
  ∃ stats,
    call CWD "statSync" [JStr "root/sub"] (tree example_world) (heap example_world)
    = mkOutcome (Return stats) [] (heap example_world)
    ∧ call CWD "stat" [JStr "root/sub"; JFunction 7] (tree example_world) (heap example_world)
      = mkOutcome (Return JUndefined) [(7, [stats])] (heap example_world)
    ∧ stats_isDirectory CWD (tree example_world) (heap example_world) stats
      = Return (isDirectory (Directory "sub" []))
    ∧ isDirectory (Directory "sub" []) = negb (isFile (Directory "sub" [])).
Proof.
  exact (stat_reports_the_kind CWD (tree example_world) (heap example_world)
           "root/sub" 1 (Directory "sub" []) 7 eq_refl eq_refl).
Defined.

(** ** Listing a directory *)

Lemma names_of_entries (h : list object) (cs : list loc) (objs : list object) :
  Forall2 (λ c o, h !! c = Some o) cs objs →
  names_of h (map CEntry cs) = Return (map (λ o, JStr (getName o)) objs).
Proof.
  induction 1 as [|c o cs objs Hc _ IH]; simpl; [done|].
  apply deref_Return in Hc. rewrite Hc. simpl. by rewrite IH.
Qed.

(** Listing a Directory whose elements are entries gives the names of
    these entries, one for each, in the order of the elements; the
    callback receives the array and the heap is left as it was. *)
Theorem readdir_lists_names_in_order
    (cwd : string) (ve : VirtualEntries) (h : list object) (p : string)
    (l : loc) (n : string) (cs : list loc) (objs : list object) (f : nat) :
  getEntry cwd ve p = Return l →
  h !! l = Some (Directory n (map CEntry cs)) →
  Forall2 (λ c o, h !! c = Some o) cs objs →
  call cwd "readdirSync" [JStr p; JFunction f] ve h
  = mkOutcome (Return JUndefined)
      [(f, [JArr (map (λ o, JStr (getName o)) objs)])] h.
Proof.
  intros Hl Ho Hcs. rewrite call_readdirSync.
  unfold readdirSync, readdir_names, arg. simpl. rewrite Hl. simpl.
  apply deref_Return in Ho. rewrite Ho. simpl.
  by rewrite (names_of_entries _ _ _ Hcs).
Qed.

Lemma readdir_lists_names_in_order_witness :
  call CWD "readdirSync" [JStr "root"; JFunction 0]
    (tree example_world) (heap example_world)
  = mkOutcome (Return JUndefined)
      [(0, [JArr [JStr "a.txt"; JStr "sub"]])] (heap example_world).
Proof.
  refine (readdir_lists_names_in_order CWD (tree example_world)
            (heap example_world) "root" 2 "root" [0; 1]
            [File "a.txt" (JStr "hello"); Directory "sub" []] 0
            eq_refl eq_refl _).
  repeat constructor.
Defined.

(** ** Writing *)

Section Writing.

Variable cwd : string.
Variable ve : VirtualEntries.
Variable h : list object.
Variable p : string.
Variable l : loc.
Variable n : string.
Variable c : jsval.

Hypothesis p_resolves : getEntry cwd ve p = Return l.
Hypothesis l_is_file : h !! l = Some (File n c).

Lemma writeFileSync_after (content : jsval) (more : list jsval) :
  call cwd "writeFileSync" (JStr p :: content :: more) ve h
  = mkOutcome (Return JUndefined) [] (<[l := File n content]> h).
Proof.
  rewrite call_writeFileSync. unfold writeFileSync, arg. simpl.
  by rewrite (write_content_file cwd ve h p l n c content p_resolves l_is_file).
Qed.

Lemma deref_written (content : jsval) (x : loc) :
  (x = l ∧ deref (<[l := File n content]> h) x = Return (File n content))
  ∨ (x ≠ l ∧ deref (<[l := File n content]> h) x = deref h x).
Proof.
  destruct (decide (x = l)) as [->|Hne]; [left|right]; split; try done.
  - apply deref_Return, list_lookup_insert_eq. by eapply lookup_lt_Some.
  - unfold deref. by rewrite list_lookup_insert_ne.
Qed.

Lemma names_of_written (content : jsval) (es : list child) :
  names_of (<[l := File n content]> h) es = names_of h es.
Proof.
  induction es as [|[x|ls] es IH]; simpl; [done| |done].
  rewrite IH. destruct (deref_written content x) as [[-> ->]|[_ ->]]; [|done].
  apply deref_Return in l_is_file. by rewrite l_is_file.
Qed.

(** A write replaces the content of the one File the path resolves to and
    nothing else: the File keeps its name, no object is added or removed,
    every other object is as before, a read through any path that resolves
    to the same File gives the new content, and a read through a path that
    resolves to another entry gives what it gave before. *)
Theorem writeFile_changes_one_file (content : jsval) (more : list jsval) :
  let h' := after (call cwd "writeFileSync" (JStr p :: content :: more) ve h) in
  h' !! l = Some (File n content)
  ∧ List.length h' = List.length h
  ∧ (∀ x, x ≠ l → h' !! x = h !! x)
  ∧ (∀ q, getEntry cwd ve q = Return l →
          read_content cwd ve h' (JStr q) = Return content)
  ∧ (∀ q x, getEntry cwd ve q = Return x → x ≠ l →
            read_content cwd ve h' (JStr q) = read_content cwd ve h (JStr q)).
Proof.
  rewrite writeFileSync_after. simpl.
  assert (<[l := File n content]> h !! l = Some (File n content)) as Hl'.
  { apply list_lookup_insert_eq. by eapply lookup_lt_Some. }
  split_and!.
  - done.
  - apply length_insert.
  - intros x Hx. by apply list_lookup_insert_ne.
  - intros q Hq. by eapply read_content_file.
  - intros q x Hq Hx. unfold read_content. simpl. rewrite Hq. simpl.
    by destruct (deref_written content x) as [[? _]|[_ ->]].
Qed.

(** A write changes no listing and no kind: after it, every directory
    lists what it listed before and every stats object answers as
    before. *)
Theorem writeFile_keeps_listings_and_kinds (content : jsval) (more : list jsval) :
  let h' := after (call cwd "writeFileSync" (JStr p :: content :: more) ve h) in
  (∀ q, readdir_names cwd ve h' q = readdir_names cwd ve h q)
  ∧ (∀ stats, stats_isDirectory cwd ve h' stats = stats_isDirectory cwd ve h stats).
Proof.
  rewrite writeFileSync_after. simpl.
  pose proof l_is_file as Hd. apply deref_Return in Hd. split.
  - intros q. unfold readdir_names.
    destruct (as_path q) as [s| |]; simpl; [|done..].
    destruct (getEntry cwd ve s) as [x| |]; simpl; [|done..].
    destruct (deref_written content x) as [[-> ->]|[_ ->]].
    + by rewrite Hd.
    + destruct (deref h x) as [[nd es|nf cf]| |]; simpl; try done.
      by rewrite names_of_written.
  - intros stats. unfold stats_isDirectory.
    destruct stats as [| | | | | | | |path]; try done.
    destruct (as_path path) as [s| |]; simpl; [|done..].
    destruct (getEntry cwd ve s) as [x| |]; simpl; [|done..].
    destruct (deref_written content x) as [[-> ->]|[_ ->]]; [|done].
    by rewrite Hd.
Qed.

(** The callback form writes before it calls back: called without a
    function as its callback it throws, and the content is replaced all the
    same. *)
Theorem writeFile_without_callback_still_writes
    (content enc cb : jsval) (more : list jsval) :
  (∀ f, cb ≠ JFunction f) →
  let out := call cwd "writeFile" (JStr p :: content :: enc :: cb :: more) ve h in
  completion out = Throw (TypeError "cb is not a function")
  ∧ calls out = []
  ∧ call cwd "readFileSync" [JStr p] ve (after out)
    = mkOutcome (Return content) [] (after out).
Proof.
  intros Hcb. simpl. rewrite call_writeFile, call_readFileSync.
  unfold writeFile, readFileSync, returning, arg. simpl.
  rewrite (write_content_file cwd ve h p l n c content p_resolves l_is_file).
  assert (<[l := File n content]> h !! l = Some (File n content)) as Hl'.
  { apply list_lookup_insert_eq. by eapply lookup_lt_Some. }
  assert (invoke cb JUndefined (<[l := File n content]> h)
          = mkOutcome (Throw (TypeError "cb is not a function")) []
              (<[l := File n content]> h)) as ->.
  { destruct cb; try done. by destruct (Hcb id). }
  simpl. split_and!; try done.
  by rewrite (read_content_file cwd ve _ p l n content p_resolves Hl').
Qed.

End Writing.

Lemma writeFile_changes_one_file_witness :
  after (call CWD "writeFileSync" [JStr "root/a.txt"; JStr "bye"]
           (tree example_world) (heap example_world)) !! 0
  = Some (File "a.txt" (JStr "bye")).
Proof.
  exact (proj1 (writeFile_changes_one_file CWD (tree example_world)
                  (heap example_world) "root/a.txt" 0 "a.txt" (JStr "hello")
                  eq_refl eq_refl (JStr "bye") [])).
Defined.

Lemma writeFile_keeps_listings_and_kinds_witness :
  readdir_names CWD (tree example_world)
    (after (call CWD "writeFileSync" [JStr "root/a.txt"; JStr "bye"]
              (tree example_world) (heap example_world)))
    (JStr "root")
  = readdir_names CWD (tree example_world) (heap example_world) (JStr "root").
Proof.
  exact (proj1 (writeFile_keeps_listings_and_kinds CWD (tree example_world)
                  (heap example_world) "root/a.txt" 0 "a.txt" (JStr "hello")
                  eq_refl eq_refl (JStr "bye") []) (JStr "root")).
Defined.

Lemma writeFile_without_callback_witness :
  completion (call CWD "writeFile" [JStr "root/a.txt"; JStr "bye"; JStr "utf8"; JUndefined]
                (tree example_world) (heap example_world))
  = Throw (TypeError "cb is not a function").
Proof.
  refine (proj1 (writeFile_without_callback_still_writes CWD (tree example_world)
                   (heap example_world) "root/a.txt" 0 "a.txt" (JStr "hello")
                   eq_refl eq_refl (JStr "bye") (JStr "utf8") JUndefined [] _)).
  intros f. discriminate.
Defined.

(** ** Adding *)

(** What an [add] that returns leaves alone.  Every path that existed
    before still resolves to the entry it resolved to, reading it gives
    what it gave, and its stats object answers as before. *)
Theorem add_keeps_existing_paths
    (cwd : string) (fuel : nat) (entries : entries_arg) (w w' : world)
    (p : string) :
  add cwd fuel entries w = Return w' →
  hasEntry cwd (tree w) p = true →
  hasEntry cwd (tree w') p = true
  ∧ getEntry cwd (tree w') p = getEntry cwd (tree w) p
  ∧ read_content cwd (tree w') (heap w') (JStr p)
    = read_content cwd (tree w) (heap w) (JStr p)
  ∧ stats_isDirectory cwd (tree w') (heap w') (JStats (JStr p))
    = stats_isDirectory cwd (tree w) (heap w) (JStats (JStr p)).
Proof.
  intros Hadd Hp.
  apply add_Return in Hadd as (r & n & old & Hr & Ho & Hh & Hroot & Hkeep).
  apply getEntry_returns_iff_hasEntry in Hp as [l Hl].
  assert (getEntry cwd (tree w') p = Return l) as Hl'.
  { apply getEntry_Return. rewrite Hroot. apply Hkeep. by apply getEntry_Return. }
  assert (hasEntry cwd (tree w') p = true) as Hhas
    by (apply getEntry_returns_iff_hasEntry; eauto).
  split; [done|]. split; [congruence|].
  unfold read_content, stats_isDirectory. simpl. rewrite Hl, Hl'. simpl.
  rewrite Hh. destruct (decide (l = r)) as [->|Hne].
  - apply deref_Return in Ho as Hd. rewrite Hd.
    assert (deref (<[r := Directory n (old ++ [CArray (as_array entries)])]> (heap w)) r
            = Return (Directory n (old ++ [CArray (as_array entries)]))) as ->.
    { apply deref_Return, list_lookup_insert_eq. by eapply lookup_lt_Some. }
    done.
  - unfold deref. by rewrite list_lookup_insert_ne.
Qed.

Lemma example_add : add CWD 3 (Single 2) example_empty_world = Return example_world.
Proof. vm_compute. reflexivity. Qed.

Lemma add_keeps_existing_paths_witness :
  hasEntry CWD (tree example_world) "." = true
  ∧ getEntry CWD (tree example_world) "." = getEntry CWD (tree example_empty_world) ".".
Proof.
  pose proof (add_keeps_existing_paths CWD 3 (Single 2) example_empty_world
                example_world "." example_add eq_refl) as (H1 & H2 & _).
  by split.
Defined.

Lemma add_total_witness : add CWD 3 (Single 2) example_empty_world ≠ Diverge.
Proof.
  apply add_total.
  - intros l n content c Hl Hc.
    destruct l as [|[|[|[|l]]]]; simpl in Hl; simplify_eq;
      repeat (apply elem_of_cons in Hc as [Hc|Hc]; [simplify_eq; lia|]);
      by apply elem_of_nil in Hc.
  - intros e He. apply list_elem_of_singleton in He as ->. lia.
Defined.

(** *** Directories that contain themselves *)

Lemma descendant_snoc (h : list object) (x y z : loc) :
  descendant h x y → child_of h y z → descendant h x z.
Proof.
  induction 1 as [x y Hxy|x y y' Hxy _ IH]; intros Hyz.
  - eapply descendant_step; [exact Hxy|]. by apply descendant_child.
  - eapply descendant_step; [exact Hxy|]. by apply IH.
Qed.

(** A Directory on a cycle has a child on a cycle. *)
Lemma cycle_child (h : list object) (x : loc) :
  descendant h x x → ∃ y, child_of h x y ∧ descendant h y y.
Proof.
  intros Hx. inversion Hx as [? ? Hc|? y ? Hc Hyx]; subst.
  - eauto.
  - exists y. split; [done|]. by eapply descendant_snoc.
Qed.

Lemma _add_children_stuck (cwd : string)
    (recur : string → loc → VirtualEntries → result VirtualEntries)
    (h : list object) (name : string) (content : list child) (y : loc) :
  CEntry y ∈ content →
  (∀ n ve ve', recur n y ve ≠ Return ve') →
  ∀ ve ve', _add_children cwd recur h name content ve ≠ Return ve'.
Proof.
  intros Hy Hrecur.
  induction content as [|[c|ls] rest IH]; simpl; intros ve ve' H.
  - by apply elem_of_nil in Hy.
  - apply bind_Return in H as (co & _ & H).
    apply bind_Return in H as (ve1 & H1 & H).
    apply elem_of_cons in Hy as [[= <-]|Hy].
    + by eapply Hrecur.
    + by eapply IH.
  - done.
Qed.

(** With a Directory that is its own descendant (after [d.addChild(d)],
    say), [_add] does not return, whatever the fuel: the walk has no end. *)
Theorem _add_never_returns_on_a_cycle (cwd : string) (h : list object) :
  ∀ fuel d name ve ve',
    descendant h d d → _add cwd fuel h name d ve ≠ Return ve'.
Proof.
  induction fuel as [|fuel IH]; intros d name ve ve' Hd H; [done|].
  rewrite _add_unfold in H. apply bind_Return in H as (o & Ho & H).
  apply deref_Return in Ho.
  destruct (cycle_child h d Hd) as (y & (n & content & Hd' & Hy) & Hyy).
  rewrite Hd' in Ho. injection Ho as <-.
  eapply _add_children_stuck; [exact Hy| |exact H].
  intros n' ve0 ve0'. by apply IH.
Qed.

(** A directory that was given itself as a child. *)
Lemma _add_never_returns_witness :
  _add CWD 5 [Directory "loop" [CEntry 0]] "/home/u/loop" 0 first_indexed
  ≠ Return first_indexed.
Proof.
  apply _add_never_returns_on_a_cycle.
  apply descendant_child. exists "loop", [CEntry 0]. split; [done|]. by left.
Defined.

(** ** Construction *)

(** A content argument that is truthy and not a plain object is stored as
    it is, a number, a boolean or an array too: the content of a File need
    not be a string. *)
Theorem File_truthy_content_stored_verbatim
    (name : string) (content : jsval) (more : list jsval) (h : list object) :
  truthy content = true →
  Object_prototype_toString content ≠ "[object Object]" →
  created_content name (content :: more) h = Return content.
Proof.
  intros Ht Hn. rewrite created_content_eq. unfold arg. simpl.
  unfold _createContent. rewrite decide_False by done.
  unfold js_or. by rewrite Ht.
Qed.

Lemma File_truthy_content_witness :
  created_content "n" [JNum 5] [] = Return (JNum 5)
  ∧ created_content "n" [JArr []] [] = Return (JArr []).
Proof.
  split; apply File_truthy_content_stored_verbatim; (reflexivity || discriminate).
Defined.

(** ** Resolution of names *)

Lemma resolve_scan_acc (args : list string) (acc : string) :
  resolve_scan args acc
  = ((resolve_scan args "").1 +:+ acc, (resolve_scan args "").2).
Proof.
  revert acc. induction args as [|x args IH]; intros acc; simpl; [done|].
  case_decide; [apply IH|].
  destruct (is_absolute x); simpl.
  - by rewrite !append_assoc.
  - rewrite IH. rewrite (IH (x +:+ "/" +:+ "")). simpl.
    by rewrite !append_assoc.
Qed.

Lemma resolve_scan_cons (x : string) (rest : list string) (acc : string) :
  x ≠ "" →
  resolve_scan (x :: rest) acc
  = if is_absolute x then (x +:+ "/" +:+ acc, true)
    else resolve_scan rest (x +:+ "/" +:+ acc).
Proof. intros Hx. simpl. by rewrite decide_False. Qed.

(** The scan of a non-empty first name: a prefix that depends only on
    whether the name is absolute, then the name, then a slash. *)
Lemma resolve_scan_name (cwd root x : string) :
  is_absolute cwd = true → x ≠ "" →
  resolve_scan [x; root; cwd] ""
  = ((if is_absolute x then "" else (resolve_scan [root; cwd] "").1)
     +:+ x +:+ "/", true).
Proof.
  intros Hcwd Hx. rewrite resolve_scan_cons by done.
  destruct (is_absolute x); [done|].
  rewrite resolve_scan_acc.
  destruct (resolve_scan_cwd cwd [root] "" Hcwd) as [p0 Hp0].
  change ([root] ++ [cwd]) with [root; cwd] in Hp0. by rewrite Hp0.
Qed.

Lemma is_absolute_app (a b : string) :
  a ≠ "" → is_absolute (a +:+ b) = is_absolute a.
Proof. by destruct a. Qed.

Lemma normalize_go_app (a : bool) (stack xs ys : list string) :
  normalize_go a stack (xs ++ ys)
  = normalize_go a (rev (normalize_go a stack xs)) ys.
Proof.
  revert stack. induction xs as [|x xs IH]; intros stack; simpl.
  - by rewrite rev_involutive.
  - repeat case_decide; try apply IH.
    destruct stack as [|top below]; [destruct a; apply IH|].
    case_decide; apply IH.
Qed.

Lemma segments_absolute_of (segs : list string) :
  Forall plain_segment segs → segments (absolute_of segs) = segs.
Proof.
  intros Hsegs. unfold absolute_of.
  change ("/" +:+ join "/" segs) with ("" +:+ String "/" (join "/" segs)).
  by rewrite segments_app, segments_join.
Qed.

(** The path of a name in terms of the segments its scan collects. *)
Lemma path_resolve_name (cwd root x : string) :
  is_absolute cwd = true → x ≠ "" →
  path_resolve cwd [root; x]
  = absolute_of
      (normalizeArray
         (segments ((if is_absolute x then "" else (resolve_scan [root; cwd] "").1)
                    +:+ x) ) false).
Proof.
  intros Hcwd Hx. unfold path_resolve.
  change (rev [cwd; root; x]) with [x; root; cwd].
  rewrite resolve_scan_name by done. simpl negb. cbv iota.
  set (pre := if is_absolute x then "" else (resolve_scan [root; cwd] "").1).
  rewrite <- append_assoc.
  change ((pre +:+ x) +:+ "/") with ((pre +:+ x) +:+ String "/" "").
  rewrite segments_app, segments_empty, app_nil_r.
  by destruct (decide _).
Qed.

(** Resolving a child name against the resolved path of its parent gives
    the path of the joined name: [_add] indexes the child [b] of a directory
    added as [a] at the path of [a/b]. *)
Theorem getRealpath_of_child
    (cwd : string) (ve : VirtualEntries) (a b : string) :
  is_absolute cwd = true → a ≠ "" →
  getRealpath cwd ve (getRealpath cwd ve a +:+ "/" +:+ b)
  = getRealpath cwd ve (a +:+ "/" +:+ b).
Proof.
  intros Hcwd Ha. unfold getRealpath.
  assert (a +:+ "/" +:+ b ≠ "") as Hab by by destruct a.
  rewrite (path_resolve_name cwd (_root ve) (a +:+ "/" +:+ b)) by done.
  rewrite is_absolute_app by done.
  rewrite (path_resolve_name cwd (_root ve) a) by done.
  set (pre := if is_absolute a then "" else (resolve_scan [_root ve; cwd] "").1).
  set (N := normalizeArray (segments (pre +:+ a)) false).
  assert (Forall plain_segment N) as HN.
  { apply normalize_go_plain; [done|].
    apply Forall_forall. intros x Hx. by eapply segments_spec. }
  rewrite path_resolve_name; [|done|done].
  change (is_absolute (absolute_of N +:+ "/" +:+ b)) with true. cbv iota.
  rewrite append_nil_l. f_equal.
  change (absolute_of N +:+ "/" +:+ b) with (absolute_of N +:+ String "/" b).
  rewrite segments_app, segments_absolute_of by done.
  rewrite <- append_assoc.
  change ((pre +:+ a) +:+ "/" +:+ b) with ((pre +:+ a) +:+ String "/" b).
  rewrite segments_app. unfold normalizeArray.
  rewrite (normalize_go_app false [] (segments (pre +:+ a))).
  rewrite normalize_go_app. fold (normalizeArray (segments (pre +:+ a)) false).
  fold N. by rewrite (normalize_go_fixed false [] N HN).
Qed.

Lemma getRealpath_of_child_witness :
  getRealpath CWD first_indexed (getRealpath CWD first_indexed "root/../x" +:+ "/" +:+ "./y")
  = getRealpath CWD first_indexed ("root/../x" +:+ "/" +:+ "./y").
Proof.
  apply getRealpath_of_child; [reflexivity | discriminate].
Defined.

(** The result of [getRealpath] is in normal form: an absolute path whose
    segments are non-empty, hold no slash and are neither [.] nor [..].  For
    an absolute name it does not depend on the root. *)
Theorem getRealpath_normal_form
    (cwd : string) (ve : VirtualEntries) (name : string) :
  is_absolute cwd = true →
  (∃ segs, Forall plain_segment segs
           ∧ getRealpath cwd ve name = absolute_of segs)
  ∧ is_absolute (getRealpath cwd ve name) = true
  ∧ (is_absolute name = true →
     ∀ ve', getRealpath cwd ve' name = getRealpath cwd ve name).
Proof.
  intros Hcwd. unfold getRealpath.
  destruct (path_resolve_shape cwd [_root ve; name] Hcwd) as (segs & Hs & Heq).
  split_and!.
  - eauto.
  - by rewrite Heq.
  - intros Hname ve'. unfold path_resolve.
    change (rev [cwd; _root ve'; name]) with ([name] ++ [_root ve'; cwd]).
    change (rev [cwd; _root ve; name]) with ([name] ++ [_root ve; cwd]).
    simpl app. by rewrite !resolve_scan_absolute.
Qed.

Lemma getRealpath_normal_form_witness :
  is_absolute (getRealpath CWD first_indexed "a/../../b") = true.
Proof.
  exact (proj1 (proj2 (getRealpath_normal_form CWD first_indexed "a/../../b" eq_refl))).
Defined.

(** ** Finding what was added *)

Lemma _add_binds_name (cwd : string) (fuel : nat) (h : list object)
    (name : string) (entry : loc) (ve ve' : VirtualEntries) :
  _add cwd fuel h name entry ve = Return ve' →
  _entries ve' !! name = Some (default entry (_entries ve !! name)).
Proof.
  destruct fuel as [|fuel]; [done|]. rewrite _add_unfold. intros H.
  apply bind_Return in H as (o & _ & H).
  assert (_entries (index_if_absent name entry ve) !! name
          = Some (default entry (_entries ve !! name))) as H1.
  { rewrite index_if_absent_lookup. by destruct (_entries ve !! name). }
  destruct o as [n content|n c].
  - eapply _add_children_extends in H as [_ Hkeep]; [by apply Hkeep|].
    apply _add_extends.
  - by injection H as <-.
Qed.

(** Adding a File whose name holds no backslash, at a path that is not yet
    indexed: [add] returns, the name then resolves to that File, reading it
    gives the content of the File, and both indices map its path to it. *)
Theorem added_file_can_be_read
    (cwd : string) (w : world) (e : loc) (n : string) (c : jsval) (fuel : nat) :
  root_is_directory w →
  heap w !! e = Some (File n c) →
  has_char BACKSLASH n = false →
  getEntries (tree w) !! getRealpath cwd (tree w) n = None →
  ∃ w', add cwd (S fuel) (Single e) w = Return w'
        ∧ hasEntry cwd (tree w') n = true
        ∧ getEntry cwd (tree w') n = Return e
        ∧ call cwd "readFileSync" [JStr n] (tree w') (heap w')
          = mkOutcome (Return c) [] (heap w')
        ∧ getEntries (tree w') !! getRealpath cwd (tree w) n = Some e
        ∧ getFiles (tree w') !! getRealpath cwd (tree w) n = Some e.
Proof.
  intros (r & nr & es & Hr & Hor) He Hn Hfresh.
  unfold getEntries, getFiles, getRealpath in *.
  set (h' := <[r := Directory nr (es ++ [CArray [e]])]> (heap w)).
  assert (h' !! e = Some (File n c)) as He'.
  { unfold h'. rewrite list_lookup_insert_ne; [done|]. intros ->. congruence. }
  set (key := path_resolve cwd [_root (tree w); n]) in *.
  set (ve1 := index_if_absent key e (tree w)).
  set (ve' := mkVirtualEntries (_entries ve1) (<[key := e]> (_files ve1)) (_root ve1)).
  assert (_entries ve1 !! key = Some e) as Hkey.
  { unfold ve1. rewrite index_if_absent_lookup. by rewrite Hfresh. }
  assert (_root ve' = _root (tree w)) as Hroot'.
  { simpl. apply index_if_absent_extends. }
  assert (add cwd (S fuel) (Single e) w = Return (mkWorld h' ve')) as Hadd.
  { unfold add. rewrite Hr. apply deref_Return in Hor. rewrite Hor. simpl.
    fold h'. apply deref_Return in He' as Hd. rewrite Hd. simpl.
    done. }
  assert (getEntry cwd ve' n = Return e) as Hget.
  { apply getEntry_Return. rewrite replace_SEP_id by done.
    rewrite Hroot'. exact Hkey. }
  exists (mkWorld h' ve'). simpl. split_and!; try done.
  - apply getEntry_returns_iff_hasEntry. eauto.
  - rewrite call_readFileSync. unfold readFileSync, arg. simpl.
    by rewrite (read_content_file cwd ve' h' n e n c Hget He').
  - apply lookup_insert_eq.
Qed.

Lemma added_file_can_be_read_witness :
  ∃ w', add CWD 1 (Single 4)
          (mkWorld (heap example_world ++ [File "b.txt" (JStr "more")])
             (tree example_world)) = Return w'
        ∧ hasEntry CWD (tree w') "b.txt" = true.
Proof.
  destruct (added_file_can_be_read CWD
              (mkWorld (heap example_world ++ [File "b.txt" (JStr "more")])
                 (tree example_world))
              4 "b.txt" (JStr "more") 0) as (w' & H1 & H2 & _).
  - exists 3, "/home/u", [CArray [2]]. split; reflexivity.
  - reflexivity.
  - reflexivity.
  - vm_compute. reflexivity.
  - by exists w'.
Defined.

(** A File inside an added Directory is read under the joined name.  When
    [process.cwd()] is absolute, [add] of the Directory [dn] returns, [dn]
    is not the empty string, [fn] is the name of a File among its children,
    the joined name [dn/fn] holds no backslash, and its path was not
    indexed before and is the path of no other entry of the added tree,
    then reading [dn/fn] gives the content of that File.  (A Directory
    named by the empty string is indexed under the root path itself, while
    the joined name [/fn] resolves from the filesystem root.) *)
Theorem nested_file_can_be_read
    (cwd : string) (fuel : nat) (w w' : world)
    (d f : loc) (dn fn : string) (content : list child) (c : jsval) :
  is_absolute cwd = true →
  add cwd fuel (Single d) w = Return w' →
  heap w' !! d = Some (Directory dn content) →
  CEntry f ∈ content →
  heap w' !! f = Some (File fn c) →
  dn ≠ "" →
  has_char BACKSLASH (dn +:+ "/" +:+ fn) = false →
  let k := getRealpath cwd (tree w) (dn +:+ "/" +:+ fn) in
  getEntries (tree w) !! k = None →
  (∀ e, visits_added cwd (heap w') (_root (tree w)) [d] k e → e = f) →
  getEntry cwd (tree w') (dn +:+ "/" +:+ fn) = Return f
  ∧ call cwd "readFileSync" [JStr (dn +:+ "/" +:+ fn)] (tree w') (heap w')
    = mkOutcome (Return c) [] (heap w').
Proof.
  intros Hcwd Hadd Hd Hf Hfo Hdn Hbs k Hfresh Huniq.
  pose proof Hadd as Hidx. apply add_indexed in Hidx as ([Hroot _] & Hin & Hfrom).
  assert (visits_added cwd (heap w') (_root (tree w)) [d] k f) as Hv.
  { exists d, (Directory dn content). split; [by left|]. split; [done|].
    eapply visits_child; [exact Hd | exact Hf | exact Hfo|]. simpl.
    unfold k. rewrite <- getRealpath_of_child by done.
    unfold getRealpath. constructor. }
  destruct (Hin k f Hv) as [e He].
  assert (e = f) as ->.
  { destruct (Hfrom k e He) as [Hold|Hnew]; [|by apply Huniq].
    unfold getEntries in Hfresh. congruence. }
  assert (getEntry cwd (tree w') (dn +:+ "/" +:+ fn) = Return f) as Hget.
  { apply getEntry_Return. rewrite replace_SEP_id by done. by rewrite Hroot. }
  split; [done|].
  rewrite call_readFileSync. unfold readFileSync, arg. simpl.
  by rewrite (read_content_file cwd (tree w') (heap w') _ f fn c Hget Hfo).
Qed.

Lemma visits_inv (cwd : string) (h : list object) (root name : string)
    (entry : loc) (k : string) (e : loc) :
  visits cwd h root name entry k e →
  (k = name ∧ e = entry)
  ∨ ∃ n content c co,
      h !! entry = Some (Directory n content) ∧ CEntry c ∈ content
      ∧ h !! c = Some co
      ∧ visits cwd h root
          (path_resolve cwd [root; name +:+ "/" +:+ getName co]) c k e.
Proof. destruct 1; eauto 10. Qed.

Lemma example_path_unique (e : loc) :
  visits_added CWD (heap example_world) "/home/u" [2] "/home/u/root/a.txt" e →
  e = 0.
Proof.
  intros (x & o & Hx & Ho & Hv).
  apply list_elem_of_singleton in Hx as ->.
  injection Ho as <-.
  apply visits_inv in Hv as [[Hk _]|(n & content & c & co & Hd & Hc & Hco & Hv)].
  { vm_compute in Hk. discriminate Hk. }
  injection Hd as <- <-.
  apply elem_of_cons in Hc as [Hc|Hc].
  - injection Hc as ->. injection Hco as <-.
    apply visits_inv in Hv as [[_ He]|(n & content & c & co & Hd & _)];
      [exact He | discriminate Hd].
  - apply list_elem_of_singleton in Hc. injection Hc as ->. injection Hco as <-.
    apply visits_inv in Hv as [[Hk _]|(n & content & c & co & Hd & Hc & _)].
    + vm_compute in Hk. discriminate Hk.
    + injection Hd as <- <-. by apply elem_of_nil in Hc.
Qed.

Lemma nested_file_can_be_read_witness :
  call CWD "readFileSync" [JStr ("root" +:+ "/" +:+ "a.txt")]
    (tree example_world) (heap example_world)
  = mkOutcome (Return (JStr "hello")) [] (heap example_world).
Proof.
  refine (proj2 (nested_file_can_be_read CWD 3 example_empty_world example_world
                   2 0 "root" "a.txt" [CEntry 0; CEntry 1] (JStr "hello")
                   eq_refl example_add eq_refl _ eq_refl _ eq_refl _ _)).
  - by left.
  - discriminate.
  - vm_compute. reflexivity.
  - exact example_path_unique.
Defined.

Lemma added_entries_found_witness :
  hasEntry CWD (tree example_world) "/home/u/root/a.txt" = true.
Proof.
  refine (proj1 (added_entries_found CWD 3 (Single 2) example_empty_world
                   example_world "/home/u/root/a.txt" 0
                   eq_refl example_add _ eq_refl)).
  exists 2, (Directory "root" [CEntry 0; CEntry 1]).
  split; [by left|]. split; [reflexivity|].
  eapply (visits_child CWD (heap example_world) "/home/u" _ 2
            "root" [CEntry 0; CEntry 1] 0 (File "a.txt" (JStr "hello")));
    [reflexivity | by left | reflexivity |].
  exact (visits_here CWD (heap example_world) "/home/u" "/home/u/root/a.txt" 0).
Defined.
